(** * pdkit.utils: signal-analysis primitives

    A shallow embedding of [src/pdkit/utils.py] and the properties of
    its procedures.

    Numbers.  The Python code computes on binary64 floats.  The samples
    of a signal are modelled as exact rationals ([Q]); sums, products
    and quotients are the exact ones, so an equality "within floating
    tolerance" is stated as equality of rationals ([==]).  The two
    infinities and the not-a-number value that [peakdet] stores in its
    running extrema are modelled explicitly ([xnum], [posval]).  numpy
    divides by zero without raising (the quotient is an infinity or a
    NaN); every statement below about a quotient carries a hypothesis
    that makes the divisor non-zero.

    Where a result depends on how binary64 rounds (the integer that
    [compute_interpeak] returns) or on a choice that a library leaves
    open (the order in which [np.argsort] puts equal entries), the
    operation is a parameter of the model, constrained by what every
    implementation of it guarantees.

    Errors.  A procedure that can raise returns a [result]; numpy's and
    scipy's [correlate] raise [ValueError] on an empty array. *)

From Stdlib Require Import String.
From Stdlib Require Import QArith Qabs Qminmax Qround Lqa.
From Stdlib Require Import ZArith Lia List Bool Arith.
From Stdlib Require Import Sorting.Permutation Sorting.Sorted.
From Stdlib Require Import Orders Sorting.Mergesort.
Import ListNotations.

Open Scope Q_scope.

(** ** Python values and outcomes *)

(** What a call can raise. [SystemExit] is what [sys.exit(msg)] raises. *)
Inductive exn : Type :=
| SystemExit (msg : string)
| IOError (msg : string)
| IndexError
| ValueError
| ZeroDivisionError
| OverflowError.

Inductive result (A : Type) : Type :=
| Ok (a : A)
| Raise (e : exn).
Arguments Ok {A} a.
Arguments Raise {A} e.

Definition bind {A B : Type} (r : result A) (k : A -> result B) : result B :=
  match r with
  | Ok a => k a
  | Raise e => Raise e
  end.

Notation "x <- r ;; k" := (bind r (fun x => k))
  (at level 61, r at next level, right associativity).

(** An argument that is either a number or an array of numbers
    ([np.isscalar] tells them apart). *)
Inductive numarg : Type :=
| Scalar (q : Q)
| Array (l : list Q).

Definition isscalar (a : numarg) : bool :=
  match a with
  | Scalar _ => true
  | Array _ => false
  end.

(** A mode argument: [None] or an integer. *)
Inductive pyval : Type :=
| PNone
| PInt (z : Z).

(** Python truthiness: [None] and [0] are false. *)
Definition truthy (v : pyval) : bool :=
  match v with
  | PNone => false
  | PInt z => negb (Z.eqb z 0)
  end.

Definition py_eq_int (v : pyval) (k : Z) : bool :=
  match v with
  | PNone => false
  | PInt z => Z.eqb z k
  end.

(** ** Comparisons and sums on rationals *)

Definition Qltb (a b : Q) : bool := negb (Qle_bool b a).

(** Python's [sum] and numpy's [.sum()]. *)
Definition sumQ (l : list Q) : Q := fold_left Qplus l 0.

(** [np.arange(n)] as numbers. *)
Definition arange (n : nat) : list Q :=
  map (fun i => inject_Z (Z.of_nat i)) (seq 0 n).

(** ** peakdet *)

Module Peakdet.

(** Running extrema: a sample, or one of the infinities they start at. *)
Inductive xnum : Type :=
| NegInf
| Fin (q : Q)
| PosInf.

(** Positions of the running extrema start at [np.nan]. *)
Inductive posval : Type :=
| NaN
| Pos (q : Q).

(** [a < b] on extended numbers. *)
Definition xltb (a b : xnum) : bool :=
  match a, b with
  | _, NegInf => false
  | NegInf, _ => true
  | PosInf, _ => false
  | Fin _, PosInf => true
  | Fin p, Fin q => Qltb p q
  end.

(** [m + d] and [m - d] for a finite [d]. *)
Definition xadd (m : xnum) (d : Q) : xnum :=
  match m with
  | Fin q => Fin (q + d)
  | inf => inf
  end.

Definition xsub (m : xnum) (d : Q) : xnum :=
  match m with
  | Fin q => Fin (q - d)
  | inf => inf
  end.

Definition record : Type := (posval * xnum)%type.

(** The variables of the scan loop. *)
Record scan : Type := mkScan {
  mn : xnum;
  mx : xnum;
  mnpos : posval;
  mxpos : posval;
  lookformax : bool;
  maxtab : list record;
  mintab : list record
}.

Definition scan0 : scan :=
  {| mn := PosInf; mx := NegInf; mnpos := NaN; mxpos := NaN;
     lookformax := true; maxtab := []; mintab := [] |}.

(** One iteration of the loop body, at sample [this = v[i]] and
    position [xi = x[i]]. *)
Definition body (delta : Q) (this xi : Q) (s : scan) : scan :=
  let s1 :=
    if xltb (mx s) (Fin this)
    then mkScan (mn s) (Fin this) (mnpos s) (Pos xi)
                (lookformax s) (maxtab s) (mintab s)
    else s in
  let s2 :=
    if xltb (Fin this) (mn s1)
    then mkScan (Fin this) (mx s1) (Pos xi) (mxpos s1)
                (lookformax s1) (maxtab s1) (mintab s1)
    else s1 in
  if lookformax s2 then
    if xltb (Fin this) (xsub (mx s2) delta)
    then mkScan (Fin this) (mx s2) (Pos xi) (mxpos s2)
                false (maxtab s2 ++ [(mxpos s2, mx s2)]) (mintab s2)
    else s2
  else
    if xltb (xadd (mn s2) delta) (Fin this)
    then mkScan (mn s2) (Fin this) (mnpos s2) (Pos xi)
                true (maxtab s2) (mintab s2 ++ [(mnpos s2, mn s2)])
    else s2.

(** The iteration at index [i]: reads [v[i]] and [x[i]]. *)
Definition step (delta : Q) (v x : list Q) (s : scan) (i : nat) : scan :=
  body delta (nth i v 0) (nth i x 0) s.

(** [for i in np.arange(len(v))]. *)
Definition run (delta : Q) (v x : list Q) (s : scan) (idx : list nat) : scan :=
  fold_left (step delta v x) idx s.

(** [if x is None: x = np.arange(len(signal))]. *)
Definition positions (signal : list Q) (x : option (list Q)) : list Q :=
  match x with
  | None => arange (length signal)
  | Some x => x
  end.

Definition peakdet (signal : list Q) (delta : numarg) (x : option (list Q))
  : result (list record * list record) :=
  let x := positions signal x in
  let v := signal in
  if negb (Nat.eqb (length v) (length x))
  then Raise (SystemExit "Input vectors v and x must have same length")
  else
    match delta with
    | Array _ => Raise (SystemExit "Input argument delta must be a scalar")
    | Scalar delta =>
        if Qle_bool delta 0
        then Raise (SystemExit "Input argument delta must be positive")
        else
          let s := run delta v x scan0 (seq 0 (length v)) in
          Ok (maxtab s, mintab s)
    end.

(** The inputs that the three checks reject. *)
Definition invalid (signal : list Q) (delta : numarg) (x : option (list Q))
  : Prop :=
  length (positions signal x) <> length signal
  \/ isscalar delta = false
  \/ exists d, delta = Scalar d /\ d <= 0.

(** *** The appends of a scan, in scan order

    [maxtab.append] and [mintab.append] are the only effects of the
    loop on the two tables; an iteration's events are the records it
    appended, read off the tables before and after it. *)
Inductive event : Type :=
| EMax (r : record)
| EMin (r : record).

Definition emitted (s s' : scan) : list event :=
  map EMax (skipn (length (maxtab s)) (maxtab s'))
  ++ map EMin (skipn (length (mintab s)) (mintab s')).

Fixpoint events (delta : Q) (v x : list Q) (s : scan) (idx : list nat)
  : list event :=
  match idx with
  | [] => []
  | i :: idx' =>
      let s' := step delta v x s i in
      emitted s s' ++ events delta v x s' idx'
  end.

Definition maxima_of (ev : list event) : list record :=
  flat_map (fun e => match e with EMax r => [r] | EMin _ => [] end) ev.

Definition minima_of (ev : list event) : list record :=
  flat_map (fun e => match e with EMin r => [r] | EMax _ => [] end) ev.

(** Maxima and minima take turns, the first being a maximum exactly
    when [want_max]. *)
Fixpoint alternates (want_max : bool) (ev : list event) : Prop :=
  match ev with
  | [] => True
  | EMax _ :: ev' => want_max = true /\ alternates false ev'
  | EMin _ :: ev' => want_max = false /\ alternates true ev'
  end.

(** What one iteration can do to the mode and the tables. *)
Inductive effect (s s' : scan) : Prop :=
| Quiet :
    lookformax s' = lookformax s -> maxtab s' = maxtab s ->
    mintab s' = mintab s -> effect s s'
| ConfirmMax :
    lookformax s = true -> lookformax s' = false ->
    maxtab s' = maxtab s ++ [(mxpos s', mx s')] ->
    mintab s' = mintab s -> effect s s'
| ConfirmMin :
    lookformax s = false -> lookformax s' = true ->
    maxtab s' = maxtab s ->
    mintab s' = mintab s ++ [(mnpos s', mn s')] -> effect s s'.

(** While only the value [c] has been seen: still looking for the
    first maximum, nothing appended, and the running maximum is unset
    or [c]. *)
Definition flat_so_far (c : Q) (s : scan) : Prop :=
  lookformax s = true /\ maxtab s = [] /\ mintab s = []
  /\ (mx s = NegInf \/ exists q, mx s = Fin q /\ q == c).

End Peakdet.

(** ** numpy and scipy primitives on arrays of numbers *)

(** Sum of the products of paired entries, over the common prefix. *)
Fixpoint dot (a b : list Q) : Q :=
  match a, b with
  | x :: a', y :: b' => x * y + dot a' b'
  | _, _ => 0
  end.

(** The full cross-correlation of two real arrays: entry [i] is
    [c_k = sum_n a[n+k] * v[n]] at lag [k = i - (len(v) - 1)], for
    every lag at which the arrays overlap. *)
Definition cross_correlation (a v : list Q) : list Q :=
  let M := length v in
  map (fun i =>
         if (i <? M - 1)%nat
         then dot a (skipn (M - 1 - i) v)
         else dot (skipn (i - (M - 1)) a) v)
      (seq 0 (length a + M - 1)).

(** [np.correlate(a, v, mode='full')], and on two arrays of the same
    length [scipy.signal.correlate(a, v, 'full')]: the full
    cross-correlation.  Both raise [ValueError] on an empty
    argument. *)
Definition correlate (a v : list Q) : result (list Q) :=
  match a, v with
  | [], _ => Raise ValueError
  | _, [] => Raise ValueError
  | _, _ => Ok (cross_correlation a v)
  end.

(** Elementwise [/] of two arrays of the same length. *)
Fixpoint div_arrays (a b : list Q) : list Q :=
  match a, b with
  | x :: a', y :: b' => (x / y) :: div_arrays a' b'
  | _, _ => []
  end.

Definition of_nat (n : nat) : Q := inject_Z (Z.of_nat n).

(** [np.arange(n, 0, -1)]: [n, n-1, ..., 1]. *)
Definition arange_down (n : nat) : list Q :=
  map (fun i => inject_Z (Z.of_nat n - Z.of_nat i)) (seq 0 n).

(** [np.linspace(start, stop, num)]: [num] evenly spaced values, the
    first [start] and, when [num > 1], the last [stop]. *)
Definition linspace (start stop : Q) (num : nat) : list Q :=
  match num with
  | 0%nat => []
  | 1%nat => [start]
  | _ =>
      let step := (stop - start) / of_nat (num - 1) in
      map (fun i => start + of_nat i * step) (seq 0 num)
  end.

(** [signal.mean()] and [signal.var()] (the population variance). *)
Definition mean (l : list Q) : Q := sumQ l / of_nat (length l).

Definition var (l : list Q) : Q :=
  let m := mean l in
  mean (map (fun x => Qabs (x - m) ^ 2) l).

(** [np.max] of a non-empty array. *)
Definition np_max (l : list Q) : result Q :=
  match l with
  | [] => Raise ValueError
  | x :: l' => Ok (fold_left Qmax l' x)
  end.

(** [a[0]] and [a[-1]]. *)
Definition first (l : list Q) : result Q :=
  match l with
  | [] => Raise IndexError
  | x :: _ => Ok x
  end.

Definition last_item (l : list Q) : result Q :=
  match l with
  | [] => Raise IndexError
  | _ => Ok (last l 0)
  end.

(** The self-correlation of [a] at the lags [0 .. len(a) - 1]:
    [sum_n a[n+k] * a[n]]. *)
Definition lags (a : list Q) : list Q :=
  map (fun k => dot (skipn k a) a) (seq 0 (length a)).

(** ** autocorrelation *)

Definition autocorrelation (signal : list Q) : result (list Q) :=
  let n := length signal in
  let variance := var signal in
  let m := mean signal in
  let signal := map (fun x => x - m) signal in
  full <- correlate signal signal ;;
  let r := skipn (length full - n) full in
  let result := div_arrays r (map (Qmult variance) (arange_down n)) in
  Ok result.

(** What [autocorrelation] returns on a non-empty signal: the lags
    [0 .. n-1] of the centred signal, each over the variance times the
    number of overlapping samples. *)
Definition normalised_lags (signal : list Q) : list Q :=
  let m := mean signal in
  div_arrays (lags (map (fun x => x - m) signal))
             (map (Qmult (var signal)) (arange_down (length signal))).

(** ** autocorrelate *)

(** The block under [# Unbiased:]; [N] is [coefficients.size]. *)
Definition unbiased (unbias : pyval) (coefficients : list Q)
  : result (list Q) :=
  let N := length coefficients in
  if truthy unbias then
    if py_eq_int unbias 1 then
      Ok (div_arrays coefficients
            (map (fun i => inject_Z (Z.of_nat N - Z.of_nat i)) (seq 0 N)))
    else if py_eq_int unbias 2 then
      c0 <- first coefficients ;;
      cl <- last_item coefficients ;;
      let coefficient_ratio := c0 / cl in
      Ok (div_arrays coefficients (linspace coefficient_ratio 1 N))
    else Raise (IOError "unbias should be set to 1, 2, or None")
  else Ok coefficients.

(** The block under [# Normalize:]. *)
Definition normalized (normalize : pyval) (coefficients : list Q)
  : result (list Q) :=
  if truthy normalize then
    if py_eq_int normalize 1 then
      c0 <- first coefficients ;;
      Ok (map (fun c => c / Qabs c0) coefficients)
    else if py_eq_int normalize 2 then
      m <- np_max (map Qabs coefficients) ;;
      Ok (map (fun c => c / m) coefficients)
    else Raise (IOError "normalize should be set to 1, 2, or None")
  else Ok coefficients.

Definition autocorrelate (data : list Q) (unbias normalize : pyval)
  : result (list Q * nat) :=
  coefficients <- correlate data data ;;
  let size := (length coefficients / 2)%nat in
  let coefficients := skipn size coefficients in
  let N := length coefficients in
  coefficients <- unbiased unbias coefficients ;;
  coefficients <- normalized normalize coefficients ;;
  Ok (coefficients, N).


(** ** compute_interpeak *)

(** [scipy.fftpack.fftfreq(n, d)]: the sample frequencies
    [[0, 1, ..., (n-1)//2, -(n//2), ..., -1] / (d*n)].  (scipy rejects
    [n = 0]; the model gives the empty array.) *)
Definition fftfreq (n : nat) (d : Q) : list Q :=
  match n with
  | 0%nat => []
  | _ =>
      let val := 1 / (of_nat n * d) in
      let N := ((n - 1) / 2 + 1)%nat in
      let p1 := map Z.of_nat (seq 0 N) in
      let p2 := map (fun i => (Z.of_nat i - Z.of_nat (n / 2))%Z)
                    (seq 0 (n / 2)) in
      map (fun k => inject_Z k * val) (p1 ++ p2)
  end.

(** Entries of an array paired with their indices, ordered by the
    entry. *)
Module ValueOrder <: TotalLeBool.

Definition t : Type := (Q * nat)%type.

Definition leb (a b : t) : bool := Qle_bool (fst a) (fst b).

Theorem leb_total (a b : t) : leb a b = true \/ leb b a = true.
Proof.
  unfold leb. rewrite !Qle_bool_iff.
  destruct (Qlt_le_dec (fst b) (fst a)) as [H | H]; [right | left].
  - now apply Qlt_le_weak.
  - exact H.
Qed.

End ValueOrder.

Module ValueSort := Sort ValueOrder.

(** [np.argsort(f)] returns the indices of [f] in an order that sorts
    its entries by their signed value.  Its default sort is not
    stable, so the order among equal entries is the implementation's:
    the model takes [argsort] as a parameter, of which it asks only
    that it sorts by value. *)
Definition sorts_by_value (argsort : list Q -> list nat) : Prop :=
  forall f,
    Permutation (argsort f) (seq 0 (length f))
    /\ StronglySorted (fun i j => nth i f 0 <= nth j f 0) (argsort f).

(** One function that sorts by value, to run the model on arrays
    without equal entries: a merge sort of the entries paired with
    their indices. *)
Definition merge_argsort (f : list Q) : list nat :=
  map snd (ValueSort.sort (combine f (seq 0 (length f)))).

(** [l[-2]]. *)
Definition second_last (l : list nat) : result nat :=
  match rev l with
  | _ :: i :: _ => Ok i
  | _ => Raise IndexError
  end.

(** [freqs[i]]. *)
Definition getitem (l : list Q) (i : nat) : result Q :=
  match nth_error l i with
  | Some x => Ok x
  | None => Raise IndexError
  end.

(** [np.round] rounds halves to the even neighbour; [np.int] of the
    rounded value is that integer. *)
Definition round_half_even (q : Q) : Z :=
  let f := Qfloor q in
  match Qcompare (q - inject_Z f) (1 # 2) with
  | Lt => f
  | Gt => (f + 1)%Z
  | Eq => if Z.even f then f else (f + 1)%Z
  end.

(** [np.int(np.round(a / b))] is computed on binary64 values: the
    frequency [b] and the quotient carry rounding errors, so when the
    exact quotient is a half-integer the integer obtained is either
    neighbour, depending on those errors.  The model takes the rounded
    quotient as a parameter, of which it asks only that it is an
    integer nearest to the exact quotient.  (In [compute_interpeak] on
    [n] samples the exact quotient is [n / |k|] up to sign, for a bin
    number [k] with [2 * |k| <= n]: it is a half-integer or at least
    [1 / n] away from one, far more than the rounding errors for any
    signal of fewer than ten million samples.) *)
Definition rounds_quotient (round_quotient : Q -> Q -> Z) : Prop :=
  forall a b,
    ~ b == 0 -> Qabs (inject_Z (round_quotient a b) - a / b) <= 1 # 2.

(** The rounded quotient in exact arithmetic, to run the model where
    the exact quotient is not a half-integer. *)
Definition exact_round_quotient (a b : Q) : Z := round_half_even (a / b).

(** [rfft] is [scipy.fftpack.rfft], a parameter of the model: it maps
    [n] samples to the [n] reals
    [[y(0), Re y(1), Im y(1), ..., Re y(n/2)]].  [argsort] and
    [round_quotient] are the two parameters above.  Dividing by a zero
    frequency gives an infinity, which [np.int] refuses. *)
Definition compute_interpeak (rfft : list Q -> list Q)
    (argsort : list Q -> list nat) (round_quotient : Q -> Q -> Z)
    (data : list Q) (sample_rate : Q) : result Z :=
  if Qeq_bool sample_rate 0 then Raise ZeroDivisionError
  else
    let freqs := fftfreq (length data) (1 / sample_rate) in
    let f_signal := rfft data in
    imax_freq <- second_last (argsort f_signal) ;;
    f <- getitem freqs imax_freq ;;
    let freq := Qabs f in
    if Qeq_bool freq 0 then Raise OverflowError
    else
      let interpeak := round_quotient sample_rate freq in
      Ok interpeak.

(** [scipy.fftpack.rfft] on four samples: with [y(j)] the sum of
    [x[k] * exp(-2*pi*i*j*k/4)], the output [[y(0), Re y(1), Im y(1),
    Re y(2)]] is rational.  Other lengths are not tabulated. *)
Definition rfft_four (data : list Q) : list Q :=
  match data with
  | [x0; x1; x2; x3] =>
      [x0 + x1 + x2 + x3; x0 - x2; x3 - x1; x0 - x1 + x2 - x3]
  | _ => []
  end.

(** Entry [i] of [f] is a second-largest entry: some other entry [j]
    is at least as large, and every entry other than [j] is at most
    entry [i]. *)
Definition second_largest_at (f : list Q) (i : nat) : Prop :=
  (i < length f)%nat
  /\ exists j, (j < length f)%nat /\ j <> i
       /\ nth i f 0 <= nth j f 0
       /\ forall k, (k < length f)%nat -> k <> j -> nth k f 0 <= nth i f 0.

(** ** butter_lowpass_filter *)

(** [scipy.signal.lfilter(b, a, x)] on a one-dimensional signal, from
    rest: the output satisfies
    [a[0]*y[n] = b[0]*x[n] + ... + b[M]*x[n-M]
                 - a[1]*y[n-1] - ... - a[N]*y[n-N]],
    terms before the start of the signal being absent.  [xs] and [ys]
    hold the inputs and outputs so far, the latest first. *)
Fixpoint lfilter_from (b : list Q) (a0 : Q) (a_rest : list Q)
    (xs ys : list Q) (x : list Q) : list Q :=
  match x with
  | [] => []
  | xn :: x' =>
      let xs' := xn :: xs in
      let yn := (dot b xs' - dot a_rest ys) / a0 in
      yn :: lfilter_from b a0 a_rest xs' (yn :: ys) x'
  end.

(** scipy refuses a denominator without a leading coefficient. *)
Definition lfilter (b a : list Q) (x : list Q) : result (list Q) :=
  match a with
  | [] => Raise ValueError
  | a0 :: a_rest =>
      if Qeq_bool a0 0 then Raise ValueError
      else Ok (lfilter_from b a0 a_rest [] [] x)
  end.

(** [butter] is [scipy.signal.butter(order, Wn, btype='low',
    analog=False)], a parameter of the model: it returns the
    coefficient arrays [(b, a)] or raises. *)
Definition butter_lowpass_filter
    (butter : nat -> Q -> result (list Q * list Q))
    (data : list Q) (sample_rate cutoff : Q) (order : nat)
  : result (list Q) :=
  let nyquist := (1 # 2) * sample_rate in
  if Qeq_bool nyquist 0 then Raise ZeroDivisionError
  else
    let normal_cutoff := cutoff / nyquist in
    ba <- butter order normal_cutoff ;;
    let y := lfilter (fst ba) (snd ba) data in
    y.

(** ** numerical_integration *)

(** [signal[1:]] is [tl signal] and [signal[:-1]] is [removelast signal].
    [/] binds tighter than [+]: only the first sum is divided by the
    sampling frequency before the second is added. *)
Definition numerical_integration (signal : list Q) (sampling_frequency : Q)
  : Q :=
  let integrate :=
    sumQ (tl signal) / sampling_frequency + sumQ (removelast signal) in
  let integrate := integrate / (sampling_frequency * 2) in
  integrate.

(** ** crossings_nonzero_pos2neg *)

(** Elementwise [&] of two boolean arrays of the same length. *)
Fixpoint and_arrays (a b : list bool) : list bool :=
  match a, b with
  | x :: a', y :: b' => (x && y) :: and_arrays a' b'
  | _, _ => []
  end.

(** [.nonzero()[0]] of a boolean array: the indices of its true
    entries, in increasing order. [nonzero_from i] numbers the entries
    from [i]. *)
Fixpoint nonzero_from (i : nat) (l : list bool) : list nat :=
  match l with
  | [] => []
  | b :: l' => (if b then [i] else []) ++ nonzero_from (S i) l'
  end.

Definition nonzero (l : list bool) : list nat := nonzero_from 0 l.

(** [data] is an ndarray or a list of numbers, so the [IOError] branch
    of the type test is not taken. *)
Definition crossings_nonzero_pos2neg (data : list Q) : list nat :=
  let pos := map (fun v => Qltb 0 v) data in
  let crossings := nonzero (and_arrays (removelast pos) (map negb (tl pos))) in
  crossings.

(** ** Auxiliary notions for the properties of the scan *)

(** The record of sample [a]: its position and its value. *)
Definition sample_record (v x : list Q) (a : nat) : Peakdet.record :=
  (Peakdet.Pos (nth a x 0), Peakdet.Fin (nth a v 0)).

Definition payload (e : Peakdet.event) : Peakdet.record :=
  match e with
  | Peakdet.EMax r => r
  | Peakdet.EMin r => r
  end.

(** A signal that never decreases. *)
Definition nondecreasing (v : list Q) : Prop :=
  forall i j, (i <= j < length v)%nat -> nth i v 0 <= nth j v 0.

(** Before iteration [c] of a scan of a non-decreasing signal: still
    looking for the first maximum, nothing appended, and the running
    maximum is unset or at most every sample still to come. *)
Definition rising_so_far (v : list Q) (c : nat) (s : Peakdet.scan) : Prop :=
  Peakdet.lookformax s = true
  /\ Peakdet.maxtab s = [] /\ Peakdet.mintab s = []
  /\ (Peakdet.mx s = Peakdet.NegInf
      \/ exists q, Peakdet.mx s = Peakdet.Fin q
                   /\ forall j, (c <= j < length v)%nat -> q <= nth j v 0).

(** Before iteration [c]: the running extremum that the current mode
    watches (the maximum when looking for a maximum, the minimum
    otherwise) is still at its initial infinity or is the sample at
    some index [a] with [lo <= a < c]. *)
Definition tracks (v x : list Q) (lo c : nat) (s : Peakdet.scan) : Prop :=
  (lo <= c)%nat
  /\ if Peakdet.lookformax s
     then Peakdet.mx s = Peakdet.NegInf
          \/ exists a, (lo <= a < c)%nat
                       /\ (Peakdet.mxpos s, Peakdet.mx s) = sample_record v x a
     else Peakdet.mn s = Peakdet.PosInf
          \/ exists a, (lo <= a < c)%nat
                       /\ (Peakdet.mnpos s, Peakdet.mn s) = sample_record v x a.

(** Each reported extremum differs from the one reported before it by
    more than [delta]: a maximum lies above the preceding minimum plus
    [delta], a minimum plus [delta] lies below the preceding maximum.
    [prev] is the value of the extremum reported last, if any. *)
Fixpoint swings (delta : Q) (prev : option Peakdet.xnum)
    (ev : list Peakdet.event) : Prop :=
  match ev with
  | [] => True
  | Peakdet.EMax r :: ev' =>
      match prev with
      | Some m => Peakdet.xltb (Peakdet.xadd m delta) (snd r) = true
      | None => True
      end
      /\ swings delta (Some (snd r)) ev'
  | Peakdet.EMin r :: ev' =>
      match prev with
      | Some M => Peakdet.xltb (Peakdet.xadd (snd r) delta) M = true
      | None => True
      end
      /\ swings delta (Some (snd r)) ev'
  end.

(** The running extremum that the current mode watches is already
    more than [delta] away from the extremum reported last. *)
Definition swung (delta : Q) (prev : option Peakdet.xnum) (s : Peakdet.scan)
  : Prop :=
  match prev with
  | None => True
  | Some p =>
      if Peakdet.lookformax s
      then Peakdet.xltb (Peakdet.xadd p delta) (Peakdet.mx s) = true
      else Peakdet.xltb (Peakdet.xadd (Peakdet.mn s) delta) p = true
  end.

(** The trapezoid rule at unit spacing: the sum of the means of
    adjacent samples. *)
Fixpoint trapezoid_sum (l : list Q) : Q :=
  match l with
  | a :: (b :: _) as t => (a + b) / 2 + trapezoid_sum t
  | _ => 0
  end.

(** The integers that [fftfreq n d] multiplies by [1 / (n * d)]:
    [0, 1, ..., (n-1)//2, -(n//2), ..., -1]. *)
Definition fftfreq_bins (n : nat) : list Z :=
  match n with
  | 0%nat => []
  | _ =>
      map Z.of_nat (seq 0 ((n - 1) / 2 + 1))
      ++ map (fun i => (Z.of_nat i - Z.of_nat (n / 2))%Z) (seq 0 (n / 2))
  end.

(** Before an iteration of a scan in which no two samples are more
    than [delta] apart: still looking for the first maximum, nothing
    appended, and the running maximum is unset or a sample. *)
Definition within_delta_so_far (v : list Q) (s : Peakdet.scan) : Prop :=
  Peakdet.lookformax s = true
  /\ Peakdet.maxtab s = [] /\ Peakdet.mintab s = []
  /\ (Peakdet.mx s = Peakdet.NegInf
      \/ exists a, (a < length v)%nat
                   /\ Peakdet.mx s = Peakdet.Fin (nth a v 0)).

(** * Properties *)

(** ** Basic facts *)

Lemma Qltb_lt (a b : Q) : Qltb a b = true <-> a < b.
Proof.
  unfold Qltb. rewrite negb_true_iff, <- not_true_iff_false, Qle_bool_iff.
  split; intro H; lra.
Qed.

Lemma Qltb_ge (a b : Q) : Qltb a b = false <-> b <= a.
Proof.
  unfold Qltb. rewrite negb_false_iff, Qle_bool_iff. reflexivity.
Qed.

Lemma arange_length (n : nat) : length (arange n) = n.
Proof. unfold arange. now rewrite length_map, length_seq. Qed.


(** ** peakdet *)

Section PeakdetFacts.
Import Peakdet.

Variable delta : Q.

Lemma body_effect (this xi : Q) (s : scan) :
  effect s (body delta this xi s).
Proof.
  unfold body.
  destruct (xltb (mx s) (Fin this)); cbn [mn mx lookformax maxtab mintab];
    destruct (xltb (Fin this) (mn s)); cbn [mn mx lookformax maxtab mintab];
    destruct (lookformax s) eqn:L; cbn [mn mx mnpos mxpos];
    match goal with
    | |- context [if ?c then _ else _] => destruct c
    end;
    first [ now apply Quiet
          | now apply ConfirmMax
          | now apply ConfirmMin ].
Qed.

Lemma skipn_length_app {A : Type} (l t : list A) :
  skipn (length l) (l ++ t) = t.
Proof. induction l; simpl; auto. Qed.

Lemma emitted_cases (s s' : scan) :
  effect s s' ->
  (emitted s s' = [] /\ lookformax s' = lookformax s
   /\ maxtab s' = maxtab s /\ mintab s' = mintab s)
  \/ (exists r, emitted s s' = [EMax r] /\ lookformax s = true
      /\ lookformax s' = false
      /\ maxtab s' = maxtab s ++ [r] /\ mintab s' = mintab s)
  \/ (exists r, emitted s s' = [EMin r] /\ lookformax s = false
      /\ lookformax s' = true
      /\ maxtab s' = maxtab s /\ mintab s' = mintab s ++ [r]).
Proof.
  intros [HL HM Hm | HL HL' HM Hm | HL HL' HM Hm]; unfold emitted.
  - left. rewrite HM, Hm, !skipn_all. auto.
  - right; left. eexists. rewrite HM, Hm, skipn_length_app, skipn_all.
    simpl. auto.
  - right; right. eexists. rewrite HM, Hm, skipn_length_app, skipn_all.
    simpl. auto.
Qed.

(** The tables after a scan are the tables before it followed by the
    maxima and the minima of its events, and the events take turns
    starting from the mode the scan began in. *)
Lemma run_events (v x : list Q) (idx : list nat) :
  forall s,
    let s' := run delta v x s idx in
    let ev := events delta v x s idx in
    maxtab s' = maxtab s ++ maxima_of ev
    /\ mintab s' = mintab s ++ minima_of ev
    /\ alternates (lookformax s) ev.
Proof.
  induction idx as [|i idx IH]; intros s; cbn zeta.
  - simpl. now rewrite !app_nil_r.
  - cbn [run fold_left events].
    specialize (IH (step delta v x s i)). cbn zeta in IH.
    fold (run delta v x (step delta v x s i) idx).
    destruct IH as (IHM & IHm & IHa).
    destruct (emitted_cases s (step delta v x s i) (body_effect _ _ s))
      as [(E & L & M & m) | [(r & E & L & L' & M & m) | (r & E & L & L' & M & m)]];
      rewrite E; cbn [app maxima_of minima_of flat_map alternates];
      fold (maxima_of (events delta v x (step delta v x s i) idx));
      fold (minima_of (events delta v x (step delta v x s i) idx)).
    + rewrite IHM, IHm, M, m, <- L. auto.
    + rewrite IHM, IHm, M, m, <- app_assoc. rewrite <- L'. auto.
    + rewrite IHM, IHm, M, m, <- app_assoc. rewrite <- L'. auto.
Qed.

Lemma alternates_count (ev : list event) :
  (alternates true ev ->
   length (maxima_of ev) = length (minima_of ev)
   \/ length (maxima_of ev) = S (length (minima_of ev)))
  /\ (alternates false ev ->
      length (minima_of ev) = length (maxima_of ev)
      \/ length (minima_of ev) = S (length (maxima_of ev))).
Proof.
  induction ev as [|[r|r] ev [IHt IHf]]; simpl.
  - auto.
  - split; intros [E H]; try discriminate.
    destruct (IHf H) as [-> | ->]; auto.
  - split; intros [E H]; try discriminate.
    destruct (IHt H) as [-> | ->]; auto.
Qed.


(** C10.  For every signal, positions of the same length and
    [delta > 0], [peakdet] returns, the records it appended alternate
    in scan order between maxima and minima, beginning with a maximum
    (the returned tables being the maxima and the minima of that
    sequence), and it returns as many maxima as minima or one more. *)
Theorem peakdet_alternates (signal : list Q) (x : option (list Q)) :
  length (positions signal x) = length signal ->
  0 < delta ->
  exists maxt mint,
    peakdet signal (Scalar delta) x = Ok (maxt, mint)
    /\ (let ev := events delta signal (positions signal x) scan0
                        (seq 0 (length signal)) in
        alternates true ev
        /\ maxt = maxima_of ev /\ mint = minima_of ev)
    /\ (length maxt = length mint \/ length maxt = S (length mint)).
Proof.
  intros Hlen Hd. unfold peakdet. cbn zeta.
  rewrite Hlen, Nat.eqb_refl. cbn [negb].
  destruct (Qle_bool delta 0) eqn:E.
  { apply Qle_bool_iff in E. lra. }
  destruct (run_events signal (positions signal x) (seq 0 (length signal)) scan0)
    as (HM & Hm & Ha).
  cbn [maxtab mintab lookformax scan0 app] in HM, Hm, Ha.
  do 2 eexists. split; [reflexivity|]. split.
  - auto.
  - rewrite HM, Hm. now apply alternates_count.
Qed.

End PeakdetFacts.

Lemma peakdet_alternates_witness :
  exists maxt mint,
    Peakdet.peakdet [0; 3; 0; 3; 0] (Scalar 1) None = Ok (maxt, mint)
    /\ (let ev := Peakdet.events 1 [0; 3; 0; 3; 0]
                    (Peakdet.positions [0; 3; 0; 3; 0] None) Peakdet.scan0
                    (seq 0 5) in
        Peakdet.alternates true ev
        /\ maxt = Peakdet.maxima_of ev /\ mint = Peakdet.minima_of ev)
    /\ (length maxt = length mint \/ length maxt = S (length mint)).
Proof.
  apply (peakdet_alternates 1 [0; 3; 0; 3; 0] None).
  - reflexivity.
  - reflexivity.
Defined.

Section PeakdetConstant.
Import Peakdet.

Variables (delta c : Q).
Hypothesis delta_pos : 0 < delta.

Lemma body_flat (this xi : Q) (s : scan) :
  this == c -> flat_so_far c s -> flat_so_far c (body delta this xi s).
Proof.
  intros Hc (L & M & m & X). unfold body.
  assert (X1 : exists q, q == c /\
            mx (if xltb (mx s) (Fin this)
                then mkScan (mn s) (Fin this) (mnpos s) (Pos xi)
                       (lookformax s) (maxtab s) (mintab s)
                else s) = Fin q).
  { destruct X as [X | (q & X & Hq)]; rewrite X; simpl.
    - exists this. auto.
    - destruct (Qltb q this); simpl; eauto. }
  destruct X1 as (q & Hq & X1).
  set (s1 := if xltb (mx s) (Fin this) then _ else s) in *.
  assert (L1 : lookformax s1 = true) by (subst s1; destruct (xltb _ _); auto).
  assert (M1 : maxtab s1 = []) by (subst s1; destruct (xltb _ _); auto).
  assert (m1 : mintab s1 = []) by (subst s1; destruct (xltb _ _); auto).
  clearbody s1.
  destruct (xltb (Fin this) (mn s1)); cbn [lookformax mx];
    rewrite L1, X1; cbn [xsub xltb];
    (destruct (Qltb this (q - delta)) eqn:E;
     [ apply Qltb_lt in E; lra | ]);
    unfold flat_so_far; cbn [lookformax maxtab mintab mx]; eauto 8.
Qed.

Lemma run_flat (v x : list Q) (idx : list nat) :
  (forall i, In i idx -> nth i v 0 == c) ->
  forall s, flat_so_far c s -> flat_so_far c (run delta v x s idx).
Proof.
  induction idx as [|i idx IH]; intros Hv s Hs; simpl; auto.
  apply IH.
  - intros j Hj. apply Hv. now right.
  - apply body_flat; auto. apply Hv. now left.
Qed.

(** C1.  For every constant signal (all samples equal to [c]) and
    every [delta > 0], [peakdet] returns an empty maxima sequence and
    an empty minima sequence. *)
Theorem peakdet_constant (signal : list Q) :
  Forall (fun v => v == c) signal ->
  peakdet signal (Scalar delta) None = Ok ([], []).
Proof.
  intros Hc. unfold peakdet. cbn zeta. cbn [positions].
  rewrite arange_length, Nat.eqb_refl. cbn [negb].
  destruct (Qle_bool delta 0) eqn:E.
  { apply Qle_bool_iff in E. lra. }
  destruct (run_flat signal (arange (length signal)) (seq 0 (length signal)))
    with (s := scan0) as (_ & M & m & _).
  - intros i Hi. apply in_seq in Hi.
    rewrite Forall_forall in Hc. apply Hc, nth_In. lia.
  - unfold flat_so_far. simpl. auto.
  - now rewrite M, m.
Qed.

End PeakdetConstant.

Lemma peakdet_constant_witness :
  Peakdet.peakdet [5 # 2; 5 # 2; 10 # 4] (Scalar (1 # 3)) None = Ok ([], []).
Proof.
  apply (peakdet_constant (1 # 3) (5 # 2)).
  - reflexivity.
  - repeat constructor.
Defined.

(** C8.  [peakdet] ends in an input-validation error exactly when the
    positions and the signal differ in length, or [delta] is not a
    scalar, or [delta <= 0]; on every other input it returns
    normally. *)
Theorem peakdet_validation (signal : list Q) (delta : numarg)
    (x : option (list Q)) :
  ((exists msg, Peakdet.peakdet signal delta x = Raise (SystemExit msg))
   <-> Peakdet.invalid signal delta x)
  /\ ((exists maxt mint, Peakdet.peakdet signal delta x = Ok (maxt, mint))
      <-> ~ Peakdet.invalid signal delta x).
Proof.
  unfold Peakdet.peakdet, Peakdet.invalid. cbn zeta.
  destruct (Nat.eqb_spec (length signal) (length (Peakdet.positions signal x)))
    as [e | n]; cbn [negb].
  - destruct delta as [d | l]; cbn [isscalar].
    + destruct (Qle_bool d 0) eqn:E.
      * apply Qle_bool_iff in E. split; split.
        -- intros _. right; right. eauto.
        -- intros _. eauto.
        -- intros (? & ? & ?). discriminate.
        -- intros H. exfalso. apply H. right; right. eauto.
      * assert (~ d <= 0).
        { intro H. apply Qle_bool_iff in H. congruence. }
        split; split.
        -- intros (? & ?). discriminate.
        -- intros [H1 | [H1 | (d' & H1 & H2)]];
             [congruence | discriminate | ].
           injection H1 as <-. contradiction.
        -- intros _ [H1 | [H1 | (d' & H1 & H2)]];
             [congruence | discriminate | ].
           injection H1 as <-. contradiction.
        -- intros _. eauto.
    + split; split.
      * intros _. auto.
      * intros _. eauto.
      * intros (? & ? & ?). discriminate.
      * intros H. exfalso. apply H. auto.
  - split; split.
    + intros _. left. congruence.
    + intros _. eauto.
    + intros (? & ? & ?). discriminate.
    + intros H. exfalso. apply H. left. congruence.
Qed.

(** ** crossings_nonzero_pos2neg *)

Lemma and_arrays_nth (a b : list bool) (j : nat) :
  nth j (and_arrays a b) false = nth j a false && nth j b false.
Proof.
  revert b j. induction a as [|x a IH]; intros [|y b] [|j]; simpl; auto.
  - now rewrite andb_false_r.
  - now rewrite andb_false_r.
Qed.

Lemma nonzero_from_In (l : list bool) :
  forall k i,
    In i (nonzero_from k l)
    <-> exists j, i = (k + j)%nat /\ nth j l false = true.
Proof.
  induction l as [|b l IH]; intros k i; simpl.
  - split; [tauto | intros ([|j] & _ & H); discriminate].
  - rewrite in_app_iff, IH. split.
    + intros [H | (j & -> & H)].
      * destruct b; [|destruct H]. destruct H as [<- | []].
        exists 0%nat. split; [lia | reflexivity].
      * exists (S j). split; [lia | exact H].
    + intros ([|j] & -> & H).
      * left. rewrite H. left. lia.
      * right. exists j. split; [lia | exact H].
Qed.

Lemma nonzero_from_sorted (l : list bool) :
  forall k, StronglySorted lt (nonzero_from k l).
Proof.
  induction l as [|b l IH]; intros k; simpl.
  - constructor.
  - destruct b; simpl; [|apply IH].
    constructor; [apply IH|].
    apply Forall_forall. intros i Hi.
    apply nonzero_from_In in Hi. destruct Hi as (j & -> & _). lia.
Qed.

(** C7.  [crossings_nonzero_pos2neg] returns exactly the indices [i]
    with [signal[i] > 0] and [signal[i+1] <= 0], in ascending order;
    on [[1, 2, -1, -2, 3]] it returns [[1]]. *)
Theorem crossings_spec (data : list Q) :
  (forall i,
      In i (crossings_nonzero_pos2neg data)
      <-> (S i < length data)%nat
          /\ 0 < nth i data 0 /\ nth (S i) data 0 <= 0)
  /\ StronglySorted lt (crossings_nonzero_pos2neg data)
  /\ crossings_nonzero_pos2neg [1; 2; -1; -2; 3] = [1%nat].
Proof.
  split; [|split; [apply nonzero_from_sorted | reflexivity]].
  intros i. unfold crossings_nonzero_pos2neg, nonzero. cbn zeta.
  rewrite nonzero_from_In.
  set (pos := map (fun v => Qltb 0 v) data).
  assert (Hp : forall j, (j < length data)%nat ->
                         nth j pos false = Qltb 0 (nth j data 0)).
  { intros j Hj. subst pos.
    rewrite (nth_indep _ false (Qltb 0 0)) by (rewrite length_map; lia).
    apply (map_nth (fun v => Qltb 0 v)). }
  assert (Hl : length pos = length data) by apply length_map.
  assert (Hn : forall j,
             nth j (and_arrays (removelast pos) (map negb (tl pos))) false
             = true
             <-> (S j < length data)%nat
                 /\ 0 < nth j data 0 /\ nth (S j) data 0 <= 0).
  { intros j. rewrite and_arrays_nth, andb_true_iff.
    rewrite removelast_firstn_len, nth_firstn, Hl.
    change (tl pos) with (skipn 1 pos).
    destruct (Nat.ltb_spec j (Nat.pred (length data))) as [Hj | Hj].
    - rewrite (nth_indep (map negb (skipn 1 pos)) false (negb true))
        by (rewrite length_map, length_skipn; lia).
      rewrite (map_nth negb), nth_skipn.
      rewrite (nth_indep _ true false) by lia.
      rewrite !Hp by lia. cbn [Nat.add].
      rewrite negb_true_iff, Qltb_lt, Qltb_ge. split.
      + intros [H1 H2]. split; [lia | auto].
      + intros (_ & H1 & H2). auto.
    - split; [intros [H _]; discriminate | intros [H _]; lia]. }
  split.
  - intros (j & -> & H). now apply Hn.
  - intros H. exists i. split; [reflexivity | now apply Hn].
Qed.

(** ** Sums *)

Lemma fold_Qplus_acc (l : list Q) :
  forall a, fold_left Qplus l a == a + sumQ l.
Proof.
  unfold sumQ. induction l as [|x l IH]; intros a; simpl.
  - ring.
  - rewrite (IH (a + x)), (IH (0 + x)). ring.
Qed.

Lemma sumQ_cons (x : Q) (l : list Q) : sumQ (x :: l) == x + sumQ l.
Proof. unfold sumQ at 1. simpl. rewrite fold_Qplus_acc. ring. Qed.

Lemma sumQ_app (l t : list Q) : sumQ (l ++ t) == sumQ l + sumQ t.
Proof.
  unfold sumQ at 1. rewrite fold_left_app, fold_Qplus_acc. reflexivity.
Qed.

Lemma sumQ_repeat (c : Q) (n : nat) :
  sumQ (repeat c n) == inject_Z (Z.of_nat n) * c.
Proof.
  induction n as [|n IH].
  - reflexivity.
  - cbn [repeat]. rewrite sumQ_cons, IH, Nat2Z.inj_succ.
    unfold Z.succ. rewrite inject_Z_plus. ring.
Qed.

(** ** numerical_integration *)

Lemma removelast_repeat {A : Type} (c : A) (n : nat) :
  removelast (repeat c (S n)) = repeat c n.
Proof.
  induction n as [|n IH]; [reflexivity|].
  change (repeat c (S (S n))) with (c :: repeat c (S n)).
  cbn [removelast]. now rewrite IH.
Qed.

Lemma constant_signal_value (c r : Q) (N : nat) :
  0 < r ->
  numerical_integration (repeat c (S N)) r
  == c * inject_Z (Z.of_nat N) * (1 + r) / (2 * r * r).
Proof.
  intros Hr. unfold numerical_integration.
  rewrite removelast_repeat. cbn [repeat tl].
  rewrite sumQ_repeat. field. lra.
Qed.

(** X11.  What the code computes on a constant signal of [N + 1]
    samples: [c * N * (1 + r) / (2 * r * r)]. *)
Lemma numerical_integration_repeat (c r : Q) (N : nat) :
  0 < r ->
  numerical_integration (repeat c (S N)) r
  == c * inject_Z (Z.of_nat N) * (1 + r) / (2 * r * r).
Proof.
  intros Hr. unfold numerical_integration.
  rewrite removelast_repeat. cbn [repeat tl].
  rewrite sumQ_repeat.
  assert (E : c * inject_Z (Z.of_nat N) * (1 + r) / (2 * r * r)
              == (inject_Z (Z.of_nat N) * c / r
                  + inject_Z (Z.of_nat N) * c) / (r * 2))
    by (field; lra).
  now rewrite E.
Qed.

(** X26.  On a constant signal the code agrees with [c * (N - 1) / r]
    only when the sampling frequency is 1 or the signal integrates
    to 0. *)
Lemma numerical_integration_repeat_agrees (c r : Q) (N : nat) :
  0 < r ->
  numerical_integration (repeat c (S N)) r
  == c * inject_Z (Z.of_nat N) / r
  <-> r == 1 \/ c * inject_Z (Z.of_nat N) == 0.
Proof.
  intros Hr. rewrite constant_signal_value by assumption.
  set (k := c * inject_Z (Z.of_nat N)).
  assert (E : k * (1 + r) / (2 * r * r) - k / r == k * (1 - r) / (2 * r * r))
    by (field; lra).
  split.
  - intros H. rewrite H in E.
    assert (E0 : k * (1 - r) == 0).
    { assert (E1 : k * (1 - r) == (k * (1 - r) / (2 * r * r)) * (2 * r * r))
        by (field; lra).
      rewrite E1, <- E. ring. }
    apply Qmult_integral in E0. destruct E0 as [E0 | E0]; [now right|].
    left. lra.
  - intros [H | H].
    + rewrite H. field.
    + rewrite H. field. lra.
Qed.

(** C2 at the signal [[1, 1]] and sampling frequency 2: the code
    returns 3/8, the integral [c * (N - 1) / r] is 1/2. *)
Theorem numerical_integration_constant_off :
  numerical_integration (repeat 1 2) 2 == 3 # 8
  /\ ~ numerical_integration (repeat 1 2) 2 == 1 * (2 - 1) / 2.
Proof.
  split.
  - reflexivity.
  - intros H. vm_compute in H. discriminate.
Qed.

(** ** Correlation *)

Lemma correlate_length (a v : list Q) :
  length (cross_correlation a v) = (length a + length v - 1)%nat.
Proof. unfold cross_correlation. now rewrite length_map, length_seq. Qed.

Lemma correlate_self (a : list Q) :
  a <> [] -> correlate a a = Ok (cross_correlation a a).
Proof. destruct a; [contradiction | reflexivity]. Qed.

Lemma map_seq_ext {A : Type} (f g : nat -> A) (m : nat) :
  forall s t,
    (forall k, (k < m)%nat -> f (s + k)%nat = g (t + k)%nat) ->
    map f (seq s m) = map g (seq t m).
Proof.
  induction m as [|m IH]; intros s t H; [reflexivity|].
  cbn [seq map]. f_equal.
  - specialize (H 0%nat). rewrite !Nat.add_0_r in H. apply H. lia.
  - apply IH. intros k Hk. specialize (H (S k)).
    rewrite !Nat.add_succ_r in H. apply H. lia.
Qed.

(** The full self-correlation has the lags [0 .. n-1] from index
    [n - 1] on. *)
Lemma correlate_second_half (a : list Q) :
  skipn (length a - 1) (cross_correlation a a) = lags a.
Proof.
  unfold cross_correlation, lags. rewrite skipn_map, skipn_seq.
  replace (length a + length a - 1 - (length a - 1))%nat with (length a)
    by lia.
  apply map_seq_ext. intros k Hk. cbn [Nat.add].
  destruct (Nat.ltb_spec (length a - 1 + k) (length a - 1)); [lia|].
  f_equal. f_equal. lia.
Qed.

Lemma lags_length (a : list Q) : length (lags a) = length a.
Proof. unfold lags. now rewrite length_map, length_seq. Qed.

Lemma lags_nth (a : list Q) (k : nat) :
  (k < length a)%nat -> nth k (lags a) 0 = dot (skipn k a) a.
Proof.
  intros Hk. unfold lags.
  rewrite (nth_indep _ 0 ((fun k => dot (skipn k a) a) 0%nat))
    by (rewrite length_map, length_seq; exact Hk).
  rewrite (map_nth (fun k => dot (skipn k a) a)), seq_nth by exact Hk.
  reflexivity.
Qed.

(** ** autocorrelate *)

Lemma correlate_midpoint (data : list Q) :
  (length (cross_correlation data data) / 2 = length data - 1)%nat.
Proof.
  rewrite correlate_length. destruct (length data) as [|n]; [reflexivity|].
  replace (S n + S n - 1)%nat with (1 + n * 2)%nat by lia.
  rewrite Nat.div_add by lia. simpl. lia.
Qed.

(** On the empty signal the correlation is refused, before the modes
    are looked at. *)
Lemma autocorrelate_empty (unbias normalize : pyval) :
  autocorrelate [] unbias normalize = Raise ValueError.
Proof. reflexivity. Qed.

(** On a non-empty signal the coefficients that the two
    post-processing blocks receive are the lags [0 .. n-1], and [N] is
    the length of the signal. *)
Lemma autocorrelate_lags (data : list Q) (unbias normalize : pyval) :
  data <> [] ->
  autocorrelate data unbias normalize
  = (coefficients <- unbiased unbias (lags data) ;;
     coefficients <- normalized normalize coefficients ;;
     Ok (coefficients, length data)).
Proof.
  intros H. unfold autocorrelate. rewrite correlate_self by exact H.
  cbn [bind]. cbn zeta.
  now rewrite correlate_midpoint, correlate_second_half, lags_length.
Qed.

(** C3 (amended).  With [unbias=None] and [normalize=None], on a
    non-empty signal [autocorrelate] returns exactly the full
    self-correlation from its midpoint [size // 2] on, which are the
    lags [0 .. n-1], together with the number [N] of these
    coefficients: the length of the signal, that is the full size
    minus its halved floor.  On the empty signal the call fails with
    the [ValueError] of [correlate]. *)
Theorem autocorrelate_raw (data : list Q) :
  (data = [] -> autocorrelate data PNone PNone = Raise ValueError)
  /\ (data <> [] ->
      exists full,
        correlate data data = Ok full
        /\ autocorrelate data PNone PNone
           = Ok (skipn (length full / 2) full, length data)
        /\ skipn (length full / 2) full = lags data
        /\ length data = (length full - length full / 2)%nat).
Proof.
  split.
  - intros ->. reflexivity.
  - intros H. exists (cross_correlation data data).
    split; [now apply correlate_self|].
    rewrite autocorrelate_lags by exact H. unfold unbiased, normalized.
    cbn [truthy bind].
    rewrite correlate_midpoint, correlate_second_half, correlate_length.
    repeat split. destruct data; [contradiction | simpl; lia].
Qed.

Lemma autocorrelate_raw_witness :
  autocorrelate [] PNone PNone = Raise ValueError
  /\ exists full,
       correlate [3; 1; 2] [3; 1; 2] = Ok full
       /\ autocorrelate [3; 1; 2] PNone PNone
          = Ok (skipn (length full / 2) full, length [3; 1; 2])
       /\ skipn (length full / 2) full = lags [3; 1; 2]
       /\ length [3; 1; 2] = (length full - length full / 2)%nat.
Proof.
  split.
  - apply (autocorrelate_raw []). reflexivity.
  - apply (autocorrelate_raw [3; 1; 2]). discriminate.
Defined.

(** C3 as stated fails on [[1, 2]]: the full self-correlation has 3
    entries, [N] is 2 and not [3 // 2 = 1]. *)
Lemma autocorrelate_raw_count_counterexample :
  let full := cross_correlation [1; 2] [1; 2] in
  correlate [1; 2] [1; 2] = Ok full
  /\ autocorrelate [1; 2] PNone PNone = Ok ([5; 2], 2%nat)
  /\ length full = 3%nat
  /\ autocorrelate [1; 2] PNone PNone
     <> Ok (skipn (length full / 2) full, (length full / 2)%nat).
Proof.
  cbn zeta. split; [reflexivity|]. split; [reflexivity|].
  split; [reflexivity|]. vm_compute. discriminate.
Qed.

(** ** Squares, sums of squares and the variance *)

Lemma Qsq_nonneg (y : Q) : 0 <= y * y.
Proof. nra. Qed.

Lemma Qabs_sq (y : Q) : Qabs y ^ 2 == y * y.
Proof.
  change (Qabs y ^ 2) with (Qabs y * Qabs y).
  rewrite <- Qabs_Qmult. apply Qabs_pos, Qsq_nonneg.
Qed.

Lemma sumQ_nonneg (l : list Q) : Forall (Qle 0) l -> 0 <= sumQ l.
Proof.
  induction 1 as [|x l Hx _ IH]; [discriminate|].
  rewrite sumQ_cons. lra.
Qed.

Lemma sumQ_zero_nonneg (l : list Q) :
  Forall (Qle 0) l -> sumQ l == 0 -> Forall (fun x => x == 0) l.
Proof.
  induction 1 as [|x l Hx Hl IH]; intros H; constructor.
  - rewrite sumQ_cons in H. pose proof (sumQ_nonneg l Hl). lra.
  - apply IH. rewrite sumQ_cons in H. pose proof (sumQ_nonneg l Hl). lra.
Qed.

Lemma dot_self_map (f : Q -> Q) (l : list Q) :
  dot (map f l) (map f l) == sumQ (map (fun x => Qabs (f x) ^ 2) l).
Proof.
  induction l as [|x l IH]; [reflexivity|].
  cbn [map dot]. rewrite sumQ_cons, IH, Qabs_sq. reflexivity.
Qed.

Lemma of_nat_pos (n : nat) : (0 < n)%nat -> 0 < of_nat n.
Proof.
  intros H. unfold of_nat. change 0 with (inject_Z 0).
  rewrite <- Zlt_Qlt. lia.
Qed.

(** A signal of variance 0 is constant. *)
Lemma var_zero_constant (l : list Q) :
  var l == 0 -> Forall (fun x => x == mean l) l.
Proof.
  destruct l as [|x0 l0] eqn:El; [constructor|]. rewrite <- El.
  assert (Hn : 0 < of_nat (length l))
    by (apply of_nat_pos; subst l; simpl; lia).
  clear El. unfold var. cbn zeta. set (m := mean l).
  unfold mean at 1. rewrite length_map. intros H.
  assert (S0 : sumQ (map (fun x => Qabs (x - m) ^ 2) l) == 0).
  { set (S := sumQ _) in *.
    assert (E : S == S / of_nat (length l) * of_nat (length l))
      by (field; lra).
    rewrite E, H. ring. }
  apply sumQ_zero_nonneg in S0.
  - rewrite Forall_map in S0. revert S0. apply Forall_impl.
    intros x Hx. rewrite Qabs_sq in Hx.
    assert (Hx' : (x - m) * (x - m) == 0) by exact Hx.
    apply Qmult_integral in Hx'. lra.
  - rewrite Forall_map. apply Forall_forall. intros x _.
    rewrite Qabs_sq. apply Qsq_nonneg.
Qed.

Lemma div_arrays_length (a b : list Q) :
  length (div_arrays a b) = Nat.min (length a) (length b).
Proof.
  revert b. induction a as [|x a IH]; intros [|y b]; simpl; auto.
Qed.

(** ** autocorrelation *)

(** On a non-empty signal [autocorrelation] returns, and what it
    slices off the full correlation are the lags of the centred
    signal. *)
Lemma autocorrelation_returns (signal : list Q) :
  signal <> [] -> autocorrelation signal = Ok (normalised_lags signal).
Proof.
  intros H. unfold autocorrelation, normalised_lags. cbn zeta.
  set (c := map (fun x => x - mean signal) signal).
  assert (Lc : length c = length signal) by apply length_map.
  assert (Hc : c <> []).
  { intros E. apply H, length_zero_iff_nil. now rewrite <- Lc, E. }
  rewrite (correlate_self c Hc). cbn [bind].
  rewrite correlate_length, Lc.
  replace (length signal + length signal - 1 - length signal)%nat
    with (length c - 1)%nat by lia.
  now rewrite correlate_second_half.
Qed.

(** C4.  For every non-constant signal, [autocorrelation] returns a
    sequence of the length of the signal whose lag-0 coefficient
    is 1. *)
Theorem autocorrelation_lag0 (signal : list Q) :
  ~ (exists c, Forall (fun v => v == c) signal) ->
  exists r,
    autocorrelation signal = Ok r
    /\ length r = length signal
    /\ nth 0 r 0 == 1.
Proof.
  intros Hnc.
  assert (Hv : ~ var signal == 0).
  { intros H. apply Hnc. exists (mean signal). now apply var_zero_constant. }
  assert (Hne : signal <> []).
  { intros ->. apply Hnc. exists 0. constructor. }
  rewrite (autocorrelation_returns signal Hne).
  eexists. split; [reflexivity|].
  unfold normalised_lags. cbn zeta.
  set (c := map (fun x => x - mean signal) signal).
  assert (Lc : length c = length signal) by apply length_map.
  split.
  - rewrite div_arrays_length, lags_length, length_map. unfold arange_down.
    rewrite length_map, length_seq. lia.
  - destruct (length signal) as [|n] eqn:En.
    { exfalso. apply Hnc. exists 0.
      apply length_zero_iff_nil in En. rewrite En. constructor. }
    assert (Hn : 0 < of_nat (S n)) by (apply of_nat_pos; lia).
    unfold lags, arange_down. rewrite Lc.
    cbn [seq map div_arrays nth skipn].
    unfold c. rewrite dot_self_map.
    rewrite Z.sub_0_r. fold (of_nat (S n)).
    unfold var in *. cbn zeta in *.
    set (m := mean signal) in *. clearbody m.
    unfold mean in Hv |- *. rewrite length_map, En in Hv |- *.
    set (ss := sumQ _) in *.
    assert (Hss : ~ ss == 0).
    { intros E. apply Hv. rewrite E. field. lra. }
    field. split; lra.
Qed.

Lemma autocorrelation_lag0_witness :
  exists r,
    autocorrelation [1; 2; 4] = Ok r
    /\ length r = 3%nat
    /\ nth 0 r 0 == 1.
Proof.
  apply (autocorrelation_lag0 [1; 2; 4]).
  intros (c & H).
  inversion H as [|? ? H1 H']; subst. inversion H' as [|? ? H2 _]; subst.
  rewrite <- H1 in H2. discriminate.
Defined.

Lemma lags_cons (x : Q) (a : list Q) :
  lags (x :: a)
  = dot (x :: a) (x :: a)
    :: map (fun k => dot (skipn k (x :: a)) (x :: a)) (seq 1 (length a)).
Proof. reflexivity. Qed.








(** ** Lag 0 dominates the self-correlation *)

Lemma dot_self_nonneg (a : list Q) : 0 <= dot a a.
Proof.
  induction a as [|x a IH]; [discriminate|].
  cbn [dot]. pose proof (Qsq_nonneg x). lra.
Qed.

Lemma dot_self_zero (a : list Q) :
  dot a a == 0 -> Forall (fun v => v == 0) a.
Proof.
  induction a as [|x a IH]; intros H; constructor; cbn [dot] in H;
    pose proof (Qsq_nonneg x); pose proof (dot_self_nonneg a).
  - assert (E : x * x == 0) by lra.
    apply Qmult_integral in E. tauto.
  - apply IH. lra.
Qed.

Lemma dot_cauchy (u : list Q) :
  forall v, 2 * Qabs (dot u v) <= dot u u + dot v v.
Proof.
  induction u as [|x u IH]; intros [|y v]; cbn [dot].
  - discriminate.
  - pose proof (dot_self_nonneg v). pose proof (Qsq_nonneg y).
    change (Qabs 0) with 0. lra.
  - pose proof (dot_self_nonneg u). pose proof (Qsq_nonneg x).
    change (Qabs 0) with 0. lra.
  - specialize (IH v).
    pose proof (Qabs_triangle (x * y) (dot u v)) as T.
    assert (P : 2 * Qabs (x * y) <= x * x + y * y).
    { apply Qabs_case; intros _.
      - pose proof (Qsq_nonneg (x - y)). lra.
      - pose proof (Qsq_nonneg (x + y)). lra. }
    lra.
Qed.

Lemma dot_self_skipn (k : nat) :
  forall a, dot (skipn k a) (skipn k a) <= dot a a.
Proof.
  induction k as [|k IH]; intros [|x a]; cbn [skipn].
  - apply Qle_refl.
  - apply Qle_refl.
  - apply Qle_refl.
  - specialize (IH a). cbn [dot]. pose proof (Qsq_nonneg x). lra.
Qed.

Lemma lag_bound (a : list Q) (k : nat) :
  Qabs (dot (skipn k a) a) <= dot a a.
Proof.
  pose proof (dot_cauchy (skipn k a) a). pose proof (dot_self_skipn k a).
  lra.
Qed.

Lemma lags_bound (a : list Q) (y : Q) :
  In y (lags a) -> Qabs y <= dot a a.
Proof.
  unfold lags. rewrite in_map_iff. intros (k & <- & _). apply lag_bound.
Qed.

Lemma fold_Qmax_first (x : Q) (l : list Q) :
  (forall y, In y l -> y <= x) ->
  forall a, a == x -> fold_left Qmax l a == x.
Proof.
  induction l as [|y l IH]; intros Hl a Ha; cbn [fold_left]; [exact Ha|].
  apply IH.
  - intros z Hz. apply Hl. now right.
  - rewrite Q.max_l; [exact Ha|]. rewrite Ha. apply Hl. now left.
Qed.

(** C5 (amended).  For every signal that is not identically zero:
    with [normalize=1] the lag-0 coefficient is 1 when [unbias] is
    [None] or 1; with [normalize=2] and [unbias=None] the lag-0
    coefficient equals the maximum-magnitude coefficient of the
    result. *)
Theorem autocorrelate_lag0 (data : list Q) :
  ~ Forall (fun v => v == 0) data ->
  (forall unbias, unbias = PNone \/ unbias = PInt 1 ->
     exists cs N,
       autocorrelate data unbias (PInt 1) = Ok (cs, N)
       /\ nth 0 cs 0 == 1)
  /\ (exists cs N M,
        autocorrelate data PNone (PInt 2) = Ok (cs, N)
        /\ np_max (map Qabs cs) = Ok M
        /\ nth 0 cs 0 == M).
Proof.
  intros Hnz.
  assert (Hpos : 0 < dot data data).
  { pose proof (dot_self_nonneg data) as H0.
    destruct (Qlt_le_dec 0 (dot data data)) as [H | H]; [exact H|].
    exfalso. apply Hnz, dot_self_zero. lra. }
  assert (Hb : forall y, In y (lags data) -> Qabs y <= dot data data)
    by apply lags_bound.
  destruct data as [|x a]; [exfalso; apply Hnz; constructor|].
  rewrite lags_cons in Hb.
  set (c0 := dot (x :: a) (x :: a)) in *.
  set (t := map _ (seq 1 (length a))) in *.
  assert (Hc0 : Qabs c0 == c0) by (apply Qabs_pos; lra).
  split.
  - intros unbias [-> | ->]; rewrite autocorrelate_lags by discriminate;
      rewrite lags_cons;
      fold c0; fold t; unfold unbiased, normalized; cbn zeta;
      cbn [truthy py_eq_int Z.eqb negb bind Pos.eqb].
    + cbn [first bind map]. do 2 eexists. split; [reflexivity|].
      cbn [nth]. rewrite Hc0. field. lra.
    + cbn [length seq map div_arrays first bind].
      do 2 eexists. split; [reflexivity|]. cbn [nth].
      rewrite Z.sub_0_r. fold (of_nat (S (length t))).
      pose proof (of_nat_pos (S (length t)) ltac:(lia)) as Hn.
      set (n := of_nat (S (length t))) in *.
      assert (Hd : 0 < c0 / n).
      { apply Qlt_shift_div_l; lra. }
      rewrite (Qabs_pos (c0 / n)) by lra. field. split; lra.
  - rewrite autocorrelate_lags by discriminate. rewrite lags_cons.
    fold c0; fold t.
    unfold unbiased, normalized. cbn zeta.
    cbn [truthy py_eq_int Z.eqb negb bind Pos.eqb map np_max].
    set (m := fold_left Qmax (map Qabs t) (Qabs c0)).
    assert (Hm : m == c0).
    { apply fold_Qmax_first; [|exact Hc0].
      intros y Hy. apply in_map_iff in Hy. destruct Hy as (c & <- & Hc).
      apply Hb. now right. }
    do 3 eexists. split; [reflexivity|]. split; [reflexivity|].
    cbn [nth].
    assert (H1 : c0 / m == 1) by (rewrite Hm; field; lra).
    rewrite fold_Qmax_first with (x := 1).
    + exact H1.
    + intros y Hy. apply in_map_iff in Hy. destruct Hy as (d & <- & Hd).
      apply in_map_iff in Hd. destruct Hd as (c & <- & Hc).
      rewrite Hm. unfold Qdiv. rewrite Qabs_Qmult.
      assert (Hi : Qabs (/ c0) == / c0).
      { apply Qabs_pos. apply Qlt_le_weak, Qinv_lt_0_compat. lra. }
      rewrite Hi. apply Qle_shift_div_r; [lra|].
      rewrite Qmult_1_l. apply Hb. now right.
    + rewrite H1. reflexivity.
Qed.

Lemma autocorrelate_lag0_witness :
  (forall unbias, unbias = PNone \/ unbias = PInt 1 ->
     exists cs N,
       autocorrelate [1; -2; 3] unbias (PInt 1) = Ok (cs, N)
       /\ nth 0 cs 0 == 1)
  /\ (exists cs N M,
        autocorrelate [1; -2; 3] PNone (PInt 2) = Ok (cs, N)
        /\ np_max (map Qabs cs) = Ok M
        /\ nth 0 cs 0 == M).
Proof.
  apply (autocorrelate_lag0 [1; -2; 3]).
  intros H. inversion H as [|? ? H1 _]. discriminate.
Defined.

(** C5 as stated fails twice.  On [[1, -1]] with [unbias=2] and
    [normalize=1] the lag-0 coefficient is -1.  On [[1, 0, 1]] with
    [unbias=1] and [normalize=2] the result is [2/3, 0, 1]: the lag-0
    coefficient is 2/3 and the maximum magnitude is 1. *)
Lemma autocorrelate_lag0_counterexample :
  (exists cs N,
      autocorrelate [1; -1] (PInt 2) (PInt 1) = Ok (cs, N)
      /\ nth 0 cs 0 == -1 /\ ~ nth 0 cs 0 == 1)
  /\ (exists cs N M,
        autocorrelate [1; 0; 1] (PInt 1) (PInt 2) = Ok (cs, N)
        /\ np_max (map Qabs cs) = Ok M
        /\ nth 0 cs 0 == 2 # 3 /\ M == 1 /\ ~ nth 0 cs 0 == M).
Proof.
  split.
  - do 2 eexists. split; [vm_compute; reflexivity|].
    split; [reflexivity | discriminate].
  - do 3 eexists. split; [vm_compute; reflexivity|].
    split; [vm_compute; reflexivity|].
    split; [reflexivity|]. split; [reflexivity | discriminate].
Qed.

(** ** compute_interpeak *)

Lemma fftfreq_length (n : nat) (d : Q) : length (fftfreq n d) = n.
Proof.
  destruct n as [|n]; [reflexivity|]. unfold fftfreq.
  rewrite length_map, length_app, !length_map, !length_seq.
  pose proof (Nat.div_mod_eq (S n) 2).
  pose proof (Nat.mod_upper_bound (S n) 2 ltac:(lia)).
  pose proof (Nat.div_mod_eq (S n - 1) 2).
  pose proof (Nat.mod_upper_bound (S n - 1) 2 ltac:(lia)).
  lia.
Qed.

(** Entry [i] of [fftfreq n d] is an integer multiple [k] of
    [1 / (n * d)], and [k] is 0 only at index 0. *)
Lemma fftfreq_nth (n : nat) (d : Q) (i : nat) :
  (i < n)%nat ->
  exists k : Z,
    nth i (fftfreq n d) 0 = inject_Z k * (1 / (of_nat n * d))
    /\ (k = 0%Z <-> i = 0%nat).
Proof.
  intros Hi. destruct n as [|n]; [lia|]. unfold fftfreq.
  set (val := 1 / (of_nat (S n) * d)).
  set (N := ((S n - 1) / 2 + 1)%nat).
  set (p1 := map Z.of_nat (seq 0 N)).
  set (p2 := map (fun i => (Z.of_nat i - Z.of_nat (S n / 2))%Z)
                 (seq 0 (S n / 2))).
  assert (L1 : length p1 = N) by (unfold p1; now rewrite length_map, length_seq).
  assert (L2 : length p2 = (S n / 2)%nat)
    by (unfold p2; now rewrite length_map, length_seq).
  assert (LN : (N + S n / 2 = S n)%nat).
  { pose proof (fftfreq_length (S n) d) as H. unfold fftfreq in H.
    rewrite length_map, length_app in H. fold N p1 p2 in H. lia. }
  exists (nth i (p1 ++ p2) 0%Z). split.
  - rewrite (nth_indep _ 0 ((fun k => inject_Z k * val) 0%Z))
      by (rewrite length_map, length_app; lia).
    apply (map_nth (fun k => inject_Z k * val)).
  - destruct (Nat.lt_ge_cases i N) as [H | H].
    + rewrite app_nth1 by lia. unfold p1.
      rewrite (nth_indep _ 0%Z (Z.of_nat 0))
        by (rewrite length_map, length_seq; lia).
      rewrite map_nth, seq_nth by lia. lia.
    + rewrite app_nth2 by lia. rewrite L1. unfold p2.
      rewrite (nth_indep _ 0%Z
                 ((fun i => (Z.of_nat i - Z.of_nat (S n / 2))%Z) 0%nat))
        by (rewrite length_map, length_seq; lia).
      rewrite (map_nth (fun i => (Z.of_nat i - Z.of_nat (S n / 2))%Z)).
      rewrite seq_nth by lia. unfold N in H. lia.
Qed.

Lemma combine_seq_In (f : list Q) :
  forall s v i,
    In (v, i) (combine f (seq s (length f))) ->
    (s <= i < s + length f)%nat /\ nth (i - s) f 0 = v.
Proof.
  induction f as [|x f IH]; intros s v i H; [destruct H|].
  cbn [length seq combine] in H. destruct H as [H | H].
  - injection H as <- <-. rewrite Nat.sub_diag.
    split; [simpl; lia | reflexivity].
  - apply IH in H. destruct H as [H1 H2]. split; [simpl; lia|].
    replace (i - s)%nat with (S (i - S s)) by lia. exact H2.
Qed.

Lemma map_snd_combine {A B : Type} (a : list A) :
  forall b : list B, length a = length b -> map snd (combine a b) = b.
Proof.
  induction a as [|x a IH]; intros [|y b] H; try discriminate; auto.
  simpl. f_equal. apply IH. now injection H.
Qed.

Lemma merge_argsort_perm (f : list Q) :
  Permutation (merge_argsort f) (seq 0 (length f)).
Proof.
  unfold merge_argsort.
  pose proof (ValueSort.Permuted_sort (combine f (seq 0 (length f)))) as P.
  apply (Permutation_map snd) in P.
  rewrite map_snd_combine in P by (now rewrite length_seq).
  symmetry. exact P.
Qed.

Lemma two_last {A : Type} (l : list A) :
  (2 <= length l)%nat -> exists l' a b, l = l' ++ [a; b].
Proof.
  intros H. destruct (exists_last (l := l)) as (l1 & b & ->).
  { intros ->. simpl in H. lia. }
  rewrite length_app in H. simpl in H.
  destruct (exists_last (l := l1)) as (l' & a & ->).
  { intros ->. simpl in H. lia. }
  exists l', a, b. now rewrite <- app_assoc.
Qed.

Lemma sorted_two_last {A : Type} (R : A -> A -> Prop) (l : list A) (a b : A) :
  StronglySorted R (l ++ [a; b]) -> Forall (fun x => R x a) l /\ R a b.
Proof.
  induction l as [|x l IH]; cbn [app]; intros H.
  - inversion H as [|? ? _ F]; subst. split; [constructor|].
    now inversion F.
  - inversion H as [|? ? S F]; subst. destruct (IH S) as [F1 Rab].
    split; [|exact Rab]. constructor; [|exact F1].
    rewrite Forall_forall in F. apply F, in_or_app. right. now left.
Qed.

Lemma value_leb_trans :
  Transitive (fun a b : Q * nat => is_true (ValueOrder.leb a b)).
Proof.
  intros a b c. unfold ValueOrder.leb, is_true. rewrite !Qle_bool_iff.
  apply Qle_trans.
Qed.

Lemma sorted_map_snd (f : list Q) (p : list (Q * nat)) :
  (forall v k, In (v, k) p -> nth k f 0 = v) ->
  StronglySorted (fun a b => is_true (ValueOrder.leb a b)) p ->
  StronglySorted (fun i j => nth i f 0 <= nth j f 0) (map snd p).
Proof.
  intros Hin. induction 1 as [|[v k] p Sp IH Fp]; [constructor|].
  cbn [map snd]. constructor.
  - apply IH. intros w j Hw. apply Hin. now right.
  - rewrite Forall_map. rewrite Forall_forall in *. intros [w j] Hw.
    specialize (Fp _ Hw). unfold ValueOrder.leb, is_true in Fp.
    cbn [fst snd] in *. apply Qle_bool_iff in Fp.
    rewrite (Hin v k) by now left. rewrite (Hin w j) by now right.
    exact Fp.
Qed.

(** The merge sort is one of the functions that sort by value. *)
Lemma merge_argsort_sorts : sorts_by_value merge_argsort.
Proof.
  intros f. split; [apply merge_argsort_perm|].
  unfold merge_argsort. apply sorted_map_snd.
  - intros v k H.
    apply (Permutation_in _
             (Permutation_sym (ValueSort.Permuted_sort _))) in H.
    apply combine_seq_In in H. rewrite Nat.sub_0_r in H. tauto.
  - apply ValueSort.StronglySorted_sort, value_leb_trans.
Qed.

(** Whatever the order among equal entries, the last but one index
    of a function that sorts by value is at a second-largest entry. *)
Lemma argsort_second_last (argsort : list Q -> list nat) (f : list Q) :
  sorts_by_value argsort ->
  (2 <= length f)%nat ->
  exists i, second_last (argsort f) = Ok i /\ second_largest_at f i.
Proof.
  intros Hs Hn. destruct (Hs f) as [Pa Sa].
  destruct (two_last (argsort f)) as (l & i & j & El).
  { rewrite (Permutation_length Pa), length_seq. exact Hn. }
  rewrite El in *.
  assert (Hin : forall k, In k (l ++ [i; j]) <-> (k < length f)%nat).
  { intros k. split; intros H.
    - apply (Permutation_in _ Pa), in_seq in H. lia.
    - apply (Permutation_in _ (Permutation_sym Pa)), in_seq. lia. }
  assert (Nd : NoDup (l ++ [i; j])).
  { apply (Permutation_NoDup (Permutation_sym Pa)), seq_NoDup. }
  apply sorted_two_last in Sa. destruct Sa as [Fl Hij].
  exists i. split.
  - unfold second_last. rewrite rev_app_distr. reflexivity.
  - split; [apply Hin, in_or_app; right; now left|].
    exists j. split; [apply Hin, in_or_app; right; right; now left|].
    split.
    { apply NoDup_app_remove_l in Nd. inversion Nd as [|? ? Hni _]; subst.
      intros ->. apply Hni. now left. }
    split; [exact Hij|].
    intros k Hk Hkj. apply Hin in Hk.
    apply in_app_or in Hk. destruct Hk as [Hk | [<- | [<- | []]]].
    + rewrite Forall_forall in Fl. now apply Fl.
    + apply Qle_refl.
    + contradiction.
Qed.

Lemma round_half_even_nearest (q : Q) :
  Qabs (inject_Z (round_half_even q) - q) <= 1 # 2.
Proof.
  unfold round_half_even. cbn zeta.
  pose proof (Qfloor_le q) as F1. pose proof (Qlt_floor q) as F2.
  set (f := Qfloor q) in *. rewrite inject_Z_plus in F2.
  change (inject_Z 1) with 1 in F2.
  apply Qabs_Qle_condition.
  destruct (Qcompare (q - inject_Z f) (1 # 2)) eqn:C.
  - apply Qeq_alt in C. destruct (Z.even f).
    + split; lra.
    + rewrite inject_Z_plus. change (inject_Z 1) with 1. split; lra.
  - apply Qlt_alt in C. split; lra.
  - apply Qgt_alt in C. rewrite inject_Z_plus. change (inject_Z 1) with 1.
    split; lra.
Qed.

(** Rounding the exact quotient is one of the rounded quotients. *)
Lemma exact_round_quotient_rounds : rounds_quotient exact_round_quotient.
Proof. intros a b _. apply round_half_even_nearest. Qed.

(** An integer within a half of an integer is that integer. *)
Lemma nearest_of_integer (z m : Z) (q : Q) :
  Qabs (inject_Z z - q) <= 1 # 2 -> q == inject_Z m -> z = m.
Proof.
  intros H E. rewrite E in H. apply Qabs_Qle_condition in H.
  destruct H as [H1 H2].
  assert (L : inject_Z (m + -1) < inject_Z z).
  { rewrite inject_Z_plus. change (inject_Z (-1)) with (- (1)). lra. }
  assert (U : inject_Z z < inject_Z (m + 1)).
  { rewrite inject_Z_plus. change (inject_Z 1) with 1. lra. }
  rewrite <- Zlt_Qlt in L, U. lia.
Qed.

Section ComputeInterpeak.

Variable rfft : list Q -> list Q.
Variable argsort : list Q -> list nat.
Variable round_quotient : Q -> Q -> Z.
Hypothesis argsort_sorts : sorts_by_value argsort.
Hypothesis quotient_rounds : rounds_quotient round_quotient.

(** The frequency at a non-zero index of [fftfreq] is not zero. *)
Lemma fftfreq_nonzero (n i : nat) (sample_rate : Q) :
  ~ sample_rate == 0 -> (i < n)%nat ->
  (Qabs (nth i (fftfreq n (1 / sample_rate)) 0) == 0 <-> i = 0%nat).
Proof.
  intros Hs Hi.
  destruct (fftfreq_nth n (1 / sample_rate) i Hi) as (k & Ek & Hk).
  rewrite Ek.
  assert (Hval : ~ 1 / (of_nat n * (1 / sample_rate)) == 0).
  { pose proof (of_nat_pos n ltac:(lia)) as Hp.
    intros H.
    assert (E : 1 / (of_nat n * (1 / sample_rate))
                == sample_rate / of_nat n)
      by (field; split; lra).
    rewrite E in H.
    assert (E' : sample_rate == sample_rate / of_nat n * of_nat n)
      by (field; lra).
    rewrite H in E'. lra. }
  split.
  - intros Ez.
    assert (Ef : inject_Z k * (1 / (of_nat n * (1 / sample_rate))) == 0).
    { revert Ez. apply Qabs_case; intros; lra. }
    apply Qmult_integral in Ef.
    destruct Ef as [Ef | Ef]; [|contradiction].
    apply Hk. change 0 with (inject_Z 0) in Ef.
    apply (proj1 (inject_Z_injective k 0%Z)), Ef.
  - intros E. apply Hk in E. subst k. change (inject_Z 0) with 0.
    rewrite Qmult_0_l. reflexivity.
Qed.

(** C6 (amended).  For every signal of at least two samples, whose
    transform has as many entries, and every non-zero sample rate,
    [compute_interpeak] selects an index [i] at which the packed
    real-FFT output has its second-largest signed value (not
    magnitude), and returns the integer that rounding
    [sample_rate / |freqs[i]|] gives, a nearest integer to that
    quotient; when the index is 0 the frequency is 0 and the
    conversion to an integer fails. *)
Theorem compute_interpeak_selects (data : list Q) (sample_rate : Q) :
  length (rfft data) = length data ->
  (2 <= length data)%nat ->
  ~ sample_rate == 0 ->
  exists i,
    second_last (argsort (rfft data)) = Ok i
    /\ second_largest_at (rfft data) i
    /\ (i = 0%nat ->
        compute_interpeak rfft argsort round_quotient data sample_rate
        = Raise OverflowError)
    /\ (i <> 0%nat ->
        exists z,
          compute_interpeak rfft argsort round_quotient data sample_rate
          = Ok z
          /\ Qabs (inject_Z z
                   - sample_rate
                     / Qabs (nth i (fftfreq (length data)
                                      (1 / sample_rate)) 0))
             <= 1 # 2).
Proof.
  intros rfft_length Hn Hs.
  destruct (argsort_second_last argsort (rfft data) argsort_sorts)
    as (i & Hsel & Hi).
  { now rewrite rfft_length. }
  exists i. split; [exact Hsel|]. split; [exact Hi|].
  destruct Hi as [Hlt _]. rewrite rfft_length in Hlt.
  pose proof (fftfreq_nonzero (length data) i sample_rate Hs Hlt) as Hz.
  unfold compute_interpeak.
  destruct (Qeq_bool sample_rate 0) eqn:E0.
  { apply Qeq_bool_iff in E0. contradiction. }
  rewrite Hsel. cbn [bind]. unfold getitem.
  set (freqs := fftfreq (length data) (1 / sample_rate)) in *.
  rewrite (nth_error_nth' freqs 0)
    by (unfold freqs; now rewrite fftfreq_length).
  cbn [bind]. split.
  - intros E. apply Hz, Qeq_bool_iff in E. now rewrite E.
  - intros Hne.
    destruct (Qeq_bool (Qabs (nth i freqs 0)) 0) eqn:Ez.
    { exfalso. apply Hne, Hz. now apply Qeq_bool_iff. }
    eexists. split; [reflexivity|]. apply quotient_rounds.
    intros E. apply Hne, Hz, E.
Qed.

End ComputeInterpeak.

Lemma compute_interpeak_selects_witness :
  exists i,
    second_last (merge_argsort (rfft_four [2; 7; 0; 11])) = Ok i
    /\ second_largest_at (rfft_four [2; 7; 0; 11]) i
    /\ (i = 0%nat ->
        compute_interpeak rfft_four merge_argsort exact_round_quotient
          [2; 7; 0; 11] 100
        = Raise OverflowError)
    /\ (i <> 0%nat ->
        exists z,
          compute_interpeak rfft_four merge_argsort exact_round_quotient
            [2; 7; 0; 11] 100
          = Ok z
          /\ Qabs (inject_Z z
                   - 100 / Qabs (nth i (fftfreq (length [2; 7; 0; 11])
                                          (1 / 100)) 0))
             <= 1 # 2).
Proof.
  apply (compute_interpeak_selects rfft_four merge_argsort
           exact_round_quotient merge_argsort_sorts
           exact_round_quotient_rounds [2; 7; 0; 11] 100).
  - reflexivity.
  - simpl. lia.
  - discriminate.
Defined.

(** C6 as stated fails on [[2, 7, 0, 11]] at 100 Hz.  The transform is
    [[20, 2, 4, -16]]: the second-largest magnitude is at index 3
    (frequency -25, giving 4), the code selects the second-largest
    signed value at index 2 (frequency -50) and returns 2.  No two
    entries are equal and both quotients are integers, so this holds
    for every [argsort] that sorts by value and every rounded
    quotient. *)
Lemma compute_interpeak_magnitude_counterexample :
  rfft_four [2; 7; 0; 11] = [20; 2; 4; -16]
  /\ (forall argsort round_quotient,
        sorts_by_value argsort -> rounds_quotient round_quotient ->
        compute_interpeak rfft_four argsort round_quotient
          [2; 7; 0; 11] 100 = Ok 2%Z)
  /\ second_largest_at (map Qabs (rfft_four [2; 7; 0; 11])) 3
  /\ (forall i,
        second_largest_at (map Qabs (rfft_four [2; 7; 0; 11])) i ->
        i = 3%nat)
  /\ 100 / Qabs (nth 3 (fftfreq 4 (1 / 100)) 0) == 4.
Proof.
  split; [reflexivity|]. split; [|split; [|split]].
  - intros argsort round_quotient Hs Hr.
    destruct (argsort_second_last argsort (rfft_four [2; 7; 0; 11]) Hs)
      as (i & Hsel & Hi); [simpl; lia|].
    assert (Ei : i = 2%nat).
    { destruct Hi as (Hi & j & Hj & Hne & Hij & Hall). simpl in Hi, Hj.
      assert (H0 := Hall 0%nat). assert (H2 := Hall 2%nat).
      destruct i as [|[|[|[|i]]]]; try lia; try reflexivity;
        destruct j as [|[|[|[|j]]]]; try lia; try congruence; exfalso;
        first [ vm_compute in Hij; now apply Hij
              | vm_compute in H0; apply H0;
                [repeat constructor | discriminate | reflexivity]
              | vm_compute in H2; apply H2;
                [repeat constructor | discriminate | reflexivity] ]. }
    subst i. unfold compute_interpeak.
    change (Qeq_bool 100 0) with false. cbv iota. cbn zeta.
    rewrite Hsel. cbn [bind].
    change (getitem (fftfreq (length [2; 7; 0; 11]) (1 / 100)) 2)
      with (Ok (nth 2 (fftfreq 4 (1 / 100)) 0)).
    cbn [bind].
    set (freq := Qabs (nth 2 (fftfreq 4 (1 / 100)) 0)).
    assert (Ef : Qeq_bool freq 0 = false) by reflexivity.
    rewrite Ef. f_equal.
    apply (nearest_of_integer _ 2 (100 / freq)).
    + apply Hr. discriminate.
    + reflexivity.
  - split; [simpl; lia|]. exists 0%nat.
    split; [simpl; lia|]. split; [discriminate|]. split; [discriminate|].
    intros k Hk Hk0. simpl in Hk.
    destruct k as [|[|[|[|k]]]]; try lia; try contradiction; discriminate.
  - intros i (Hi & j & Hj & Hne & Hij & Hall). simpl in Hi, Hj.
    assert (H0 := Hall 0%nat). assert (H3 := Hall 3%nat).
    destruct i as [|[|[|[|i]]]]; try lia; try reflexivity;
      destruct j as [|[|[|[|j]]]]; try lia; try congruence; exfalso;
      first [ vm_compute in Hij; now apply Hij
            | vm_compute in H0; apply H0;
              [repeat constructor | discriminate | reflexivity]
            | vm_compute in H3; apply H3;
              [repeat constructor | discriminate | reflexivity] ].
  - reflexivity.
Qed.

(** * Further properties *)

(** ** peakdet on a signal that never decreases *)

Section PeakdetRising.
Import Peakdet.

Variables (delta : Q) (v x : list Q).
Hypothesis delta_pos : 0 < delta.
Hypothesis v_rises : nondecreasing v.

Lemma step_rising (c : nat) (s : scan) :
  (c < length v)%nat ->
  rising_so_far v c s -> rising_so_far v (S c) (step delta v x s c).
Proof.
  intros Hc (L & M & m & X). unfold step, body.
  set (this := nth c v 0). set (xi := nth c x 0).
  assert (X1 : exists q, q <= this
            /\ (forall j, (S c <= j < length v)%nat -> q <= nth j v 0)
            /\ mx (if xltb (mx s) (Fin this)
                   then mkScan (mn s) (Fin this) (mnpos s) (Pos xi)
                          (lookformax s) (maxtab s) (mintab s)
                   else s) = Fin q).
  { assert (Hthis : forall j, (S c <= j < length v)%nat ->
                              this <= nth j v 0).
    { intros j Hj. apply v_rises. lia. }
    destruct X as [X | (q & X & Hq)]; rewrite X; simpl.
    - exists this. split; [apply Qle_refl | auto].
    - destruct (Qltb q this) eqn:E; simpl.
      + exists this. split; [apply Qle_refl | auto].
      + exists q. split; [apply Hq; lia|]. split; [|exact X].
        intros j Hj. apply Hq. lia. }
  destruct X1 as (q & Hq & Hlater & X1).
  set (s1 := if xltb (mx s) (Fin this) then _ else s) in *.
  assert (L1 : lookformax s1 = true) by (subst s1; destruct (xltb _ _); auto).
  assert (M1 : maxtab s1 = []) by (subst s1; destruct (xltb _ _); auto).
  assert (m1 : mintab s1 = []) by (subst s1; destruct (xltb _ _); auto).
  clearbody s1.
  destruct (xltb (Fin this) (mn s1)); cbn [lookformax mx];
    rewrite L1, X1; cbn [xsub xltb];
    (destruct (Qltb this (q - delta)) eqn:E;
     [ apply Qltb_lt in E; lra | ]);
    unfold rising_so_far; cbn [lookformax maxtab mintab mx]; eauto 8.
Qed.

Lemma run_rising (len : nat) :
  forall c s,
    (c + len <= length v)%nat ->
    rising_so_far v c s ->
    rising_so_far v (c + len) (run delta v x s (seq c len)).
Proof.
  induction len as [|len IH]; intros c s Hc Hs.
  - now rewrite Nat.add_0_r.
  - cbn [seq run fold_left]. fold (run delta v x (step delta v x s c)).
    rewrite <- Nat.add_succ_comm. apply IH; [lia|].
    apply step_rising; [lia | exact Hs].
Qed.

End PeakdetRising.

(** X1.  On a signal that never decreases, [peakdet] with a positive
    [delta] reports no maximum and no minimum, whatever the
    positions. *)
Theorem peakdet_nondecreasing (delta : Q) (signal : list Q)
    (x : option (list Q)) :
  0 < delta ->
  length (Peakdet.positions signal x) = length signal ->
  nondecreasing signal ->
  Peakdet.peakdet signal (Scalar delta) x = Ok ([], []).
Proof.
  intros Hd Hlen Hv. unfold Peakdet.peakdet. cbn zeta.
  rewrite Hlen, Nat.eqb_refl. cbn [negb].
  destruct (Qle_bool delta 0) eqn:E.
  { apply Qle_bool_iff in E. lra. }
  destruct (run_rising delta signal (Peakdet.positions signal x) Hd Hv
              (length signal) 0 Peakdet.scan0)
    as (_ & M & m & _).
  - simpl. lia.
  - unfold rising_so_far. simpl. auto.
  - cbn [Nat.add] in M, m. now rewrite M, m.
Qed.

Lemma peakdet_nondecreasing_witness :
  Peakdet.peakdet [1; 1; 3; 7] (Scalar 1) None = Ok ([], []).
Proof.
  apply peakdet_nondecreasing.
  - reflexivity.
  - reflexivity.
  - intros i j Hij. simpl in Hij.
    destruct i as [|[|[|[|i]]]]; destruct j as [|[|[|[|j]]]];
      try lia; discriminate.
Defined.

(** ** The records peakdet reports are samples, in order of occurrence *)

Section PeakdetRecords.
Import Peakdet.

Variables (delta : Q) (v x : list Q).
Hypothesis delta_pos : 0 < delta.

(** The loop body with its two updates of the running extrema
    spelled out. *)
Lemma body_flat_form (this xi : Q) (s : scan) :
  let up := xltb (mx s) (Fin this) in
  let dn := xltb (Fin this) (mn s) in
  let mx2 := if up then Fin this else mx s in
  let mxpos2 := if up then Pos xi else mxpos s in
  let mn2 := if dn then Fin this else mn s in
  let mnpos2 := if dn then Pos xi else mnpos s in
  body delta this xi s
  = if lookformax s then
      if xltb (Fin this) (xsub mx2 delta)
      then mkScan (Fin this) mx2 (Pos xi) mxpos2 false
             (maxtab s ++ [(mxpos2, mx2)]) (mintab s)
      else mkScan mn2 mx2 mnpos2 mxpos2 true (maxtab s) (mintab s)
    else
      if xltb (xadd mn2 delta) (Fin this)
      then mkScan mn2 (Fin this) mnpos2 (Pos xi) true
             (maxtab s) (mintab s ++ [(mnpos2, mn2)])
      else mkScan mn2 mx2 mnpos2 mxpos2 false (maxtab s) (mintab s).
Proof.
  destruct s as [mn0 mx0 mnp0 mxp0 l0 M0 m0]. unfold body.
  cbn [mn mx mnpos mxpos lookformax maxtab mintab].
  destruct (xltb mx0 (Fin this));
    cbn [mn mx mnpos mxpos lookformax maxtab mintab];
    destruct (xltb (Fin this) mn0);
    cbn [mn mx mnpos mxpos lookformax maxtab mintab];
    destruct l0; reflexivity.
Qed.

(** An iteration appends nothing, or the record of an earlier sample
    that the scan has not reported yet. *)
Lemma step_tracks (lo c : nat) (s : scan) :
  tracks v x lo c s ->
  let s' := step delta v x s c in
  (emitted s s' = [] /\ tracks v x lo (S c) s')
  \/ exists a, (lo <= a < c)%nat
       /\ (emitted s s' = [EMax (sample_record v x a)]
           \/ emitted s s' = [EMin (sample_record v x a)])
       /\ tracks v x (S a) (S c) s'.
Proof.
  intros [Hlo T]. cbn zeta. unfold step. rewrite body_flat_form. cbn zeta.
  set (this := nth c v 0). set (xi := nth c x 0).
  assert (Hself : (Pos xi, Fin this) = sample_record v x c) by reflexivity.
  unfold emitted, tracks.
  destruct (lookformax s) eqn:L.
  - (* looking for a maximum *)
    destruct (xltb (mx s) (Fin this)) eqn:U.
    + (* the running maximum becomes this sample: no confirmation *)
      cbn [xsub xltb].
      destruct (Qltb this (this - delta)) eqn:E;
        [apply Qltb_lt in E; lra|].
      left. cbn [lookformax mx mxpos maxtab mintab].
      rewrite !skipn_all. split; [reflexivity|]. split; [lia|].
      right. exists c. split; [lia | exact Hself].
    + destruct T as [T | (a & Ha & T)].
      { rewrite T in U. discriminate. }
      destruct (xltb (Fin this) (xsub (mx s) delta)) eqn:E;
        cbn [lookformax mx mxpos mn mnpos maxtab mintab].
      * right. exists a. split; [exact Ha|]. split.
        -- left. now rewrite skipn_length_app, skipn_all, T.
        -- split; [lia|]. right. exists c. split; [lia | exact Hself].
      * left. rewrite !skipn_all. split; [reflexivity|]. split; [lia|].
        right. exists a. split; [lia | exact T].
  - (* looking for a minimum *)
    destruct (xltb (Fin this) (mn s)) eqn:U.
    + (* the running minimum becomes this sample: no confirmation *)
      cbn [xadd xltb].
      destruct (Qltb (this + delta) this) eqn:E;
        [apply Qltb_lt in E; lra|].
      left. cbn [lookformax mn mnpos maxtab mintab].
      rewrite !skipn_all. split; [reflexivity|]. split; [lia|].
      right. exists c. split; [lia | exact Hself].
    + destruct T as [T | (a & Ha & T)].
      { rewrite T in U. discriminate. }
      destruct (xltb (xadd (mn s) delta) (Fin this)) eqn:E;
        cbn [lookformax mx mxpos mn mnpos maxtab mintab].
      * right. exists a. split; [exact Ha|]. split.
        -- right. now rewrite skipn_length_app, skipn_all, T.
        -- split; [lia|]. right. exists c. split; [lia | exact Hself].
      * left. rewrite !skipn_all. split; [reflexivity|]. split; [lia|].
        right. exists a. split; [lia | exact T].
Qed.

(** The records appended by the iterations [c .. c+len-1], in scan
    order, are the records of strictly increasing sample indices, none
    of them the index of the last iteration. *)
Lemma run_tracks (len : nat) :
  forall lo c s,
    tracks v x lo c s ->
    exists idxs,
      StronglySorted lt idxs
      /\ Forall (fun a => (lo <= a)%nat /\ (S a < c + len)%nat) idxs
      /\ map payload (events delta v x s (seq c len))
         = map (sample_record v x) idxs.
Proof.
  induction len as [|len IH]; intros lo c s T.
  - exists []. repeat split; constructor.
  - cbn [seq events].
    destruct (step_tracks lo c s T) as [[E T'] | (a & Ha & E & T')].
    + rewrite E. cbn [app].
      destruct (IH lo (S c) _ T') as (idxs & S1 & F1 & M1).
      exists idxs. split; [exact S1|]. split; [|exact M1].
      revert F1. apply Forall_impl. intros b Hb. lia.
    + destruct (IH (S a) (S c) _ T') as (idxs & S1 & F1 & M1).
      exists (a :: idxs). split; [|split].
      * constructor; [exact S1|]. revert F1. apply Forall_impl.
        intros b Hb. lia.
      * constructor; [lia|]. revert F1. apply Forall_impl.
        intros b Hb. lia.
      * destruct E as [-> | ->]; cbn [app map payload]; now rewrite M1.
Qed.

End PeakdetRecords.

Lemma events_split (f : nat -> Peakdet.record) (P : nat -> Prop)
    (ev : list Peakdet.event) :
  forall idxs,
    map payload ev = map f idxs ->
    StronglySorted lt idxs ->
    Forall P idxs ->
    exists imax imin,
      StronglySorted lt imax /\ StronglySorted lt imin
      /\ Forall P imax /\ Forall P imin
      /\ incl imax idxs /\ incl imin idxs
      /\ Peakdet.maxima_of ev = map f imax
      /\ Peakdet.minima_of ev = map f imin.
Proof.
  induction ev as [|e ev IH]; intros [|a idxs] Hm Hs Hp; try discriminate.
  - exists [], []. repeat split; try constructor; intros ? [].
  - cbn [map] in Hm. injection Hm as Ha Hm.
    inversion Hs as [|? ? Hs' Hlt]; subst.
    inversion Hp as [|? ? Pa Hp']; subst.
    destruct (IH idxs Hm Hs' Hp')
      as (imax & imin & S1 & S2 & P1 & P2 & I1 & I2 & E1 & E2).
    assert (Lt : forall l, incl l idxs -> Forall (lt a) l).
    { intros l Hl. apply Forall_forall. intros b Hb.
      rewrite Forall_forall in Hlt. apply Hlt, Hl, Hb. }
    destruct e as [r | r]; cbn [payload] in Ha; subst r.
    + exists (a :: imax), imin.
      split; [constructor; auto|]. split; [exact S2|].
      split; [constructor; auto|]. split; [exact P2|].
      split; [intros b [<- | Hb]; [now left | right; now apply I1]|].
      split; [intros b Hb; right; now apply I2|].
      cbn [Peakdet.maxima_of Peakdet.minima_of flat_map app map].
      split; [f_equal; exact E1 | exact E2].
    + exists imax, (a :: imin).
      split; [exact S1|]. split; [constructor; auto|].
      split; [exact P1|]. split; [constructor; auto|].
      split; [intros b Hb; right; now apply I1|].
      split; [intros b [<- | Hb]; [now left | right; now apply I2]|].
      cbn [Peakdet.maxima_of Peakdet.minima_of flat_map app map].
      split; [exact E1 | f_equal; exact E2].
Qed.

(** X2.  Whenever [peakdet] returns, each table lists records of
    samples of the input, the position and the value at one index, at
    strictly increasing indices (the order of occurrence), and never
    the last sample. *)
Theorem peakdet_reports_samples (signal : list Q) (delta : numarg)
    (x : option (list Q)) (maxt mint : list Peakdet.record) :
  Peakdet.peakdet signal delta x = Ok (maxt, mint) ->
  exists imax imin,
    StronglySorted lt imax /\ StronglySorted lt imin
    /\ Forall (fun a => (S a < length signal)%nat) (imax ++ imin)
    /\ maxt = map (sample_record signal (Peakdet.positions signal x)) imax
    /\ mint = map (sample_record signal (Peakdet.positions signal x)) imin.
Proof.
  unfold Peakdet.peakdet. cbn zeta.
  destruct (negb _); [discriminate|].
  destruct delta as [d | ?]; [|discriminate].
  destruct (Qle_bool d 0) eqn:E; [discriminate|].
  assert (Hd : 0 < d).
  { destruct (Qlt_le_dec 0 d) as [H | H]; [exact H|].
    apply Qle_bool_iff in H. congruence. }
  intros H. injection H as <- <-.
  set (xs := Peakdet.positions signal x).
  destruct (run_events d signal xs (seq 0 (length signal)) Peakdet.scan0)
    as (HM & Hm & _).
  cbn [Peakdet.maxtab Peakdet.mintab Peakdet.scan0 app] in HM, Hm.
  destruct (run_tracks d signal xs Hd (length signal) 0 0 Peakdet.scan0)
    as (idxs & Ss & Fs & Ms).
  { split; [lia|]. left. reflexivity. }
  cbn [Nat.add] in Fs.
  destruct (events_split (sample_record signal xs)
              (fun a => (S a < length signal)%nat) _ idxs Ms Ss)
    as (imax & imin & S1 & S2 & P1 & P2 & _ & _ & E1 & E2).
  { revert Fs. apply Forall_impl. intros a Ha. lia. }
  exists imax, imin. rewrite HM, Hm.
  repeat split; auto. apply Forall_app. auto.
Qed.

Lemma peakdet_reports_samples_witness :
  exists imax imin,
    StronglySorted lt imax /\ StronglySorted lt imin
    /\ Forall (fun a => (S a < 5)%nat) (imax ++ imin)
    /\ [(Peakdet.Pos 1, Peakdet.Fin 3); (Peakdet.Pos 3, Peakdet.Fin 3)]
       = map (sample_record [0; 3; 0; 3; 0]
                (Peakdet.positions [0; 3; 0; 3; 0] None)) imax
    /\ [(Peakdet.Pos 2, Peakdet.Fin 0)]
       = map (sample_record [0; 3; 0; 3; 0]
                (Peakdet.positions [0; 3; 0; 3; 0] None)) imin.
Proof.
  apply (peakdet_reports_samples [0; 3; 0; 3; 0] (Scalar 1) None).
  reflexivity.
Defined.

(** ** Hysteresis: successive extrema are more than delta apart *)

Section PeakdetSwings.
Import Peakdet.

Variables (delta : Q) (v x : list Q).

Lemma xltb_trans (a b c : xnum) :
  xltb a b = true -> xltb b c = true -> xltb a c = true.
Proof.
  destruct a as [|p|], b as [|q|], c as [|r|]; simpl;
    try discriminate; try reflexivity.
  rewrite !Qltb_lt. apply Qlt_trans.
Qed.

Lemma xadd_mono (a b : xnum) :
  xltb a b = true -> xltb (xadd a delta) (xadd b delta) = true.
Proof.
  destruct a as [|p|], b as [|q|]; simpl; try discriminate; try reflexivity.
  rewrite !Qltb_lt. intros H. lra.
Qed.

Lemma xsub_xadd (this : Q) (M : xnum) :
  xltb (Fin this) (xsub M delta) = true ->
  xltb (xadd (Fin this) delta) M = true.
Proof.
  destruct M as [|q|]; simpl; try discriminate; try reflexivity.
  rewrite !Qltb_lt. intros H. lra.
Qed.

Lemma step_swung (prev : option xnum) (c : nat) (s : scan) :
  swung delta prev s ->
  let s' := step delta v x s c in
  (emitted s s' = [] /\ swung delta prev s')
  \/ (exists r, emitted s s' = [EMax r]
        /\ match prev with
           | Some m => xltb (xadd m delta) (snd r) = true
           | None => True
           end
        /\ swung delta (Some (snd r)) s')
  \/ (exists r, emitted s s' = [EMin r]
        /\ match prev with
           | Some M => xltb (xadd (snd r) delta) M = true
           | None => True
           end
        /\ swung delta (Some (snd r)) s').
Proof.
  intros W. cbn zeta. unfold step. rewrite body_flat_form. cbn zeta.
  set (this := nth c v 0). set (xi := nth c x 0).
  unfold emitted, swung in *.
  destruct (lookformax s) eqn:L.
  - set (mx2 := if xltb (mx s) (Fin this) then Fin this else mx s).
    assert (W2 : match prev with
                 | Some p => xltb (xadd p delta) mx2 = true
                 | None => True
                 end).
    { destruct prev as [p|]; [|exact I]. subst mx2.
      destruct (xltb (mx s) (Fin this)) eqn:U; [|exact W].
      now apply xltb_trans with (mx s). }
    destruct (xltb (Fin this) (xsub mx2 delta)) eqn:E;
      cbn [lookformax mx mn maxtab mintab].
    + right; left. eexists. rewrite skipn_length_app, skipn_all.
      split; [reflexivity|]. cbn [snd]. split; [exact W2|].
      now apply xsub_xadd.
    + left. rewrite !skipn_all. split; [reflexivity | exact W2].
  - set (mn2 := if xltb (Fin this) (mn s) then Fin this else mn s).
    assert (W2 : match prev with
                 | Some p => xltb (xadd mn2 delta) p = true
                 | None => True
                 end).
    { destruct prev as [p|]; [|exact I]. subst mn2.
      destruct (xltb (Fin this) (mn s)) eqn:U; [|exact W].
      apply xltb_trans with (xadd (mn s) delta); [|exact W].
      now apply xadd_mono. }
    destruct (xltb (xadd mn2 delta) (Fin this)) eqn:E;
      cbn [lookformax mx mn maxtab mintab].
    + right; right. eexists. rewrite skipn_length_app, skipn_all.
      split; [reflexivity|]. cbn [snd]. split; [exact W2 | exact E].
    + left. rewrite !skipn_all. split; [reflexivity | exact W2].
Qed.

Lemma run_swings (idx : list nat) :
  forall prev s,
    swung delta prev s -> swings delta prev (events delta v x s idx).
Proof.
  induction idx as [|c idx IH]; intros prev s W; [exact I|].
  cbn [events].
  destruct (step_swung prev c s W)
    as [[E W'] | [(r & E & P & W') | (r & E & P & W')]];
    rewrite E; cbn [app swings]; auto.
Qed.

End PeakdetSwings.

(** X3.  Whenever [peakdet] returns, the extrema it reported, taken in
    scan order (alternately from the maxima and the minima tables),
    are each more than [delta] away from the one before: every minimum
    lies more than [delta] below the maximum reported before it, and
    every later maximum more than [delta] above the minimum reported
    before it. *)
Theorem peakdet_hysteresis (signal : list Q) (delta : Q)
    (x : option (list Q)) (maxt mint : list Peakdet.record) :
  Peakdet.peakdet signal (Scalar delta) x = Ok (maxt, mint) ->
  exists ev,
    Peakdet.alternates true ev
    /\ maxt = Peakdet.maxima_of ev /\ mint = Peakdet.minima_of ev
    /\ swings delta None ev.
Proof.
  unfold Peakdet.peakdet. cbn zeta.
  destruct (negb _); [discriminate|].
  destruct (Qle_bool delta 0); [discriminate|].
  intros H. injection H as <- <-.
  set (xs := Peakdet.positions signal x).
  destruct (run_events delta signal xs (seq 0 (length signal)) Peakdet.scan0)
    as (HM & Hm & Ha).
  cbn [Peakdet.maxtab Peakdet.mintab Peakdet.lookformax Peakdet.scan0 app]
    in HM, Hm, Ha.
  exists (Peakdet.events delta signal xs Peakdet.scan0
            (seq 0 (length signal))).
  repeat split; auto. apply run_swings. exact I.
Qed.

Lemma peakdet_hysteresis_witness :
  exists ev,
    Peakdet.alternates true ev
    /\ [(Peakdet.Pos 1, Peakdet.Fin 3); (Peakdet.Pos 3, Peakdet.Fin 3)]
       = Peakdet.maxima_of ev
    /\ [(Peakdet.Pos 2, Peakdet.Fin 0)] = Peakdet.minima_of ev
    /\ swings 1 None ev.
Proof.
  apply (peakdet_hysteresis [0; 3; 0; 3; 0] 1 None).
  reflexivity.
Defined.

(** ** autocorrelate: shape of the result *)

Lemma linspace_length (start stop : Q) (num : nat) :
  length (linspace start stop num) = num.
Proof.
  destruct num as [|[|n]]; [reflexivity | reflexivity |].
  unfold linspace. now rewrite length_map, length_seq.
Qed.

Lemma unbiased_length (unbias : pyval) (cs cs' : list Q) :
  unbiased unbias cs = Ok cs' -> length cs' = length cs.
Proof.
  unfold unbiased. cbn zeta.
  destruct (truthy unbias); [|now intros [= <-]].
  destruct (py_eq_int unbias 1).
  { intros [= <-].
    rewrite div_arrays_length, length_map, length_seq. apply Nat.min_id. }
  destruct (py_eq_int unbias 2); [|discriminate].
  destruct (first cs) as [c0|]; [|discriminate].
  destruct (last_item cs) as [cl|]; [|discriminate].
  cbn [bind]. intros [= <-].
  rewrite div_arrays_length, linspace_length. apply Nat.min_id.
Qed.

Lemma normalized_length (normalize : pyval) (cs cs' : list Q) :
  normalized normalize cs = Ok cs' -> length cs' = length cs.
Proof.
  unfold normalized.
  destruct (truthy normalize); [|now intros [= <-]].
  destruct (py_eq_int normalize 1).
  { destruct (first cs) as [c0|]; [|discriminate].
    cbn [bind]. intros [= <-]. apply length_map. }
  destruct (py_eq_int normalize 2); [|discriminate].
  destruct (np_max (map Qabs cs)) as [m|]; [|discriminate].
  cbn [bind]. intros [= <-]. apply length_map.
Qed.

(** X4.  Whenever [autocorrelate] returns, in any mode, the count [N]
    is the length of the signal and there are exactly [N]
    coefficients. *)
Theorem autocorrelate_shape (data : list Q) (unbias normalize : pyval)
    (cs : list Q) (N : nat) :
  autocorrelate data unbias normalize = Ok (cs, N) ->
  N = length data /\ length cs = N.
Proof.
  destruct data as [|x a]; [rewrite autocorrelate_empty; discriminate|].
  rewrite autocorrelate_lags by discriminate.
  set (data := x :: a).
  destruct (unbiased unbias (lags data)) as [c1|] eqn:E1; [|discriminate].
  cbn [bind].
  destruct (normalized normalize c1) as [c2|] eqn:E2; [|discriminate].
  cbn [bind]. intros [= <- <-]. split; [reflexivity|].
  apply normalized_length in E2. apply unbiased_length in E1.
  now rewrite E2, E1, lags_length.
Qed.

Lemma autocorrelate_shape_witness :
  2%nat = length [1; -1] /\ length [-4 # 4; -2 # 2] = 2%nat.
Proof.
  apply (autocorrelate_shape [1; -1] (PInt 2) (PInt 1)).
  reflexivity.
Defined.

(** ** autocorrelate: normalising by the largest magnitude *)

Lemma fold_Qmax_bounds (l : list Q) :
  forall a,
    a <= fold_left Qmax l a
    /\ (forall y, In y l -> y <= fold_left Qmax l a)
    /\ (fold_left Qmax l a == a
        \/ exists y, In y l /\ fold_left Qmax l a == y).
Proof.
  induction l as [|z l IH]; intros a; cbn [fold_left].
  - split; [apply Qle_refl|]. split; [intros y []|]. left. reflexivity.
  - destruct (IH (Qmax a z)) as (H1 & H2 & H3).
    pose proof (Q.le_max_l a z) as La. pose proof (Q.le_max_r a z) as Lz.
    split; [lra|]. split.
    + intros y [<- | Hy]; [lra | now apply H2].
    + destruct H3 as [H3 | (y & Hy & H3)].
      * destruct (Q.max_spec a z) as [[_ E] | [_ E]].
        -- right. exists z. split; [now left | now rewrite H3].
        -- left. now rewrite H3.
      * right. exists y. split; [now right | exact H3].
Qed.

(** Dividing by the largest magnitude brings every coefficient into
    [[-1, 1]] and some coefficient onto the boundary. *)
Lemma normalized_by_max (u : list Q) :
  ~ Forall (fun c => c == 0) u ->
  exists cs,
    normalized (PInt 2) u = Ok cs
    /\ Forall (fun c => Qabs c <= 1) cs
    /\ Exists (fun c => Qabs c == 1) cs.
Proof.
  intros Hnz. destruct u as [|u0 ut]; [exfalso; apply Hnz; constructor|].
  unfold normalized. cbn [truthy py_eq_int Z.eqb negb Pos.eqb map np_max bind].
  set (M := fold_left Qmax (map Qabs ut) (Qabs u0)).
  destruct (fold_Qmax_bounds (map Qabs ut) (Qabs u0)) as (B0 & Bt & Bx).
  fold M in B0, Bt, Bx.
  assert (Ball : forall c, In c (u0 :: ut) -> Qabs c <= M).
  { intros c [<- | Hc]; [exact B0|]. apply Bt. now apply in_map. }
  assert (Mpos : 0 < M).
  { destruct (Qlt_le_dec 0 M) as [H | H]; [exact H|].
    exfalso. apply Hnz, Forall_forall. intros c Hc.
    specialize (Ball c Hc). pose proof (Qabs_nonneg c) as Hn.
    assert (E : Qabs c == 0) by lra.
    revert E. apply Qabs_case; intros; lra. }
  assert (Hq : forall c, Qabs (c / M) == Qabs c / M).
  { intros c. unfold Qdiv. rewrite Qabs_Qmult.
    rewrite (Qabs_pos (/ M)); [reflexivity|].
    apply Qlt_le_weak, Qinv_lt_0_compat, Mpos. }
  eexists. split; [reflexivity|]. split.
  - change (Forall (fun c => Qabs c <= 1)
              (map (fun c => c / M) (u0 :: ut))).
    rewrite Forall_map. apply Forall_forall. intros c Hc.
    rewrite Hq. apply Qle_shift_div_r; [exact Mpos|].
    rewrite Qmult_1_l. now apply Ball.
  - change (Exists (fun c => Qabs c == 1)
              (map (fun c => c / M) (u0 :: ut))).
    rewrite Exists_map. apply Exists_exists.
    destruct Bx as [Bx | (y & Hy & Bx)].
    + exists u0. split; [now left|]. rewrite Hq, <- Bx. field. lra.
    + apply in_map_iff in Hy. destruct Hy as (c & <- & Hc).
      exists c. split; [now right|]. rewrite Hq, <- Bx. field. lra.
Qed.

(** X5.  For a signal that is not identically zero and [unbias] [None]
    or 1, [autocorrelate] with [normalize=2] returns coefficients that
    all lie in [[-1, 1]], one of them of magnitude 1. *)
Theorem autocorrelate_normalize2_unit (data : list Q) (unbias : pyval) :
  ~ Forall (fun v => v == 0) data ->
  unbias = PNone \/ unbias = PInt 1 ->
  exists cs N,
    autocorrelate data unbias (PInt 2) = Ok (cs, N)
    /\ Forall (fun c => Qabs c <= 1) cs
    /\ Exists (fun c => Qabs c == 1) cs.
Proof.
  intros Hnz Hu.
  assert (Hpos : 0 < dot data data).
  { pose proof (dot_self_nonneg data) as H0.
    destruct (Qlt_le_dec 0 (dot data data)) as [H | H]; [exact H|].
    exfalso. apply Hnz, dot_self_zero. lra. }
  destruct data as [|x a]; [exfalso; apply Hnz; constructor|].
  rewrite autocorrelate_lags by discriminate. rewrite lags_cons.
  set (c0 := dot (x :: a) (x :: a)) in *.
  set (t := map _ (seq 1 (length a))).
  assert (Hu' : exists u0 ut,
             unbiased unbias (c0 :: t) = Ok (u0 :: ut) /\ 0 < u0).
  { destruct Hu as [-> | ->]; unfold unbiased; cbn zeta;
      cbn [truthy py_eq_int Z.eqb negb Pos.eqb].
    - exists c0, t. split; [reflexivity | exact Hpos].
    - cbn [length seq map div_arrays]. do 2 eexists.
      split; [reflexivity|]. rewrite Z.sub_0_r.
      fold (of_nat (S (length t))).
      apply Qlt_shift_div_l; [apply of_nat_pos; lia | lra]. }
  destruct Hu' as (u0 & ut & -> & Hu0). cbn [bind].
  destruct (normalized_by_max (u0 :: ut)) as (cs & -> & F & X).
  { intros H. inversion H as [|? ? H0 _]. lra. }
  cbn [bind]. eauto.
Qed.

Lemma autocorrelate_normalize2_unit_witness :
  exists cs N,
    autocorrelate [1; 0; 1] (PInt 1) (PInt 2) = Ok (cs, N)
    /\ Forall (fun c => Qabs c <= 1) cs
    /\ Exists (fun c => Qabs c == 1) cs.
Proof.
  apply (autocorrelate_normalize2_unit [1; 0; 1] (PInt 1)).
  - intros H. inversion H as [|? ? H0 _]. discriminate.
  - now right.
Defined.

(** ** autocorrelate: the two unbiasing modes *)

Lemma div_arrays_nth (a : list Q) :
  forall b k,
    (k < length a)%nat -> (k < length b)%nat ->
    nth k (div_arrays a b) 0 = nth k a 0 / nth k b 0.
Proof.
  induction a as [|p a IH]; intros [|q b] [|k] Ha Hb; simpl in *;
    try lia; try reflexivity.
  apply IH; lia.
Qed.

Lemma last_nth {A : Type} (l : list A) (d : A) :
  last l d = nth (length l - 1) l d.
Proof.
  induction l as [|y l IH]; [reflexivity|].
  destruct l as [|z l]; [reflexivity|].
  change (last (y :: z :: l) d) with (last (z :: l) d). rewrite IH.
  cbn [length].
  replace (S (S (length l)) - 1)%nat with (S (S (length l) - 1)) by lia.
  reflexivity.
Qed.

Lemma skipn_last {A : Type} (l : list A) (d : A) :
  l <> [] -> skipn (length l - 1) l = [last l d].
Proof.
  induction l as [|y l IH]; intros H; [contradiction|].
  destruct l as [|z l]; [reflexivity|].
  change (last (y :: z :: l) d) with (last (z :: l) d).
  rewrite <- IH by discriminate.
  cbn [length].
  replace (S (S (length l)) - 1)%nat with (S (S (length l) - 1)) by lia.
  reflexivity.
Qed.

(** X6.  With [unbias=1] and no normalisation, on a non-empty signal
    [autocorrelate] returns at each lag [k] the sum of the products
    [data[l+k] * data[l]] divided by [N - k]. *)
Theorem autocorrelate_unbias1 (data : list Q) :
  data <> [] ->
  exists cs,
    autocorrelate data (PInt 1) PNone = Ok (cs, length data)
    /\ forall k, (k < length data)%nat ->
         nth k cs 0
         = dot (skipn k data) data
           / inject_Z (Z.of_nat (length data) - Z.of_nat k).
Proof.
  intros Hne. rewrite autocorrelate_lags by exact Hne.
  unfold unbiased, normalized. cbn zeta.
  cbn [truthy py_eq_int Z.eqb negb Pos.eqb bind].
  eexists. split; [reflexivity|]. intros k Hk.
  rewrite lags_length.
  rewrite div_arrays_nth
    by (rewrite ?lags_length, ?length_map, ?length_seq; exact Hk).
  rewrite lags_nth by exact Hk. f_equal.
  rewrite (nth_indep _ 0
             ((fun i => inject_Z (Z.of_nat (length data) - Z.of_nat i))
                0%nat))
    by (rewrite length_map, length_seq; exact Hk).
  rewrite (map_nth (fun i =>
                      inject_Z (Z.of_nat (length data) - Z.of_nat i))).
  now rewrite seq_nth by exact Hk.
Qed.

Lemma linspace_nth (start stop : Q) (num k : nat) :
  (2 <= num)%nat -> (k < num)%nat ->
  nth k (linspace start stop num) 0
  = start + of_nat k * ((stop - start) / of_nat (num - 1)).
Proof.
  intros Hn Hk. destruct num as [|[|n]]; try lia. unfold linspace.
  set (f := fun i => start + of_nat i * ((stop - start) / of_nat (S (S n) - 1))).
  rewrite (nth_indep _ 0 (f 0%nat)) by (rewrite length_map, length_seq; lia).
  rewrite (map_nth f), seq_nth by lia. reflexivity.
Qed.

Lemma dot_last_lag (data : list Q) :
  data <> [] ->
  dot (skipn (length data - 1) data) data == last data 0 * nth 0 data 0.
Proof.
  intros H. rewrite (skipn_last data 0 H).
  destruct data as [|x a]; [contradiction|]. cbn [dot nth]. ring.
Qed.

Lemma autocorrelate_unbias1_witness :
  exists cs,
    autocorrelate [1; 0; 1] (PInt 1) PNone = Ok (cs, length [1; 0; 1])
    /\ forall k, (k < length [1; 0; 1])%nat ->
         nth k cs 0
         = dot (skipn k [1; 0; 1]) [1; 0; 1]
           / inject_Z (Z.of_nat (length [1; 0; 1]) - Z.of_nat k).
Proof.
  apply (autocorrelate_unbias1 [1; 0; 1]). discriminate.
Defined.

(** X7.  With [unbias=2] and no normalisation, on a signal of at least
    two samples whose first and last samples are non-zero, the lag-0
    coefficient and the last coefficient that [autocorrelate] returns
    are both the product of the first and the last sample. *)
Theorem autocorrelate_unbias2_ends (data : list Q) :
  (2 <= length data)%nat ->
  ~ last data 0 * nth 0 data 0 == 0 ->
  exists cs,
    autocorrelate data (PInt 2) PNone = Ok (cs, length data)
    /\ nth 0 cs 0 == last data 0 * nth 0 data 0
    /\ last cs 0 == last data 0 * nth 0 data 0.
Proof.
  intros Hn Hnz.
  assert (Hne : data <> []) by (intros ->; simpl in Hn; lia).
  assert (Hl : nth (length data - 1) (lags data) 0
               == last data 0 * nth 0 data 0).
  { rewrite lags_nth by lia. now apply dot_last_lag. }
  assert (H0 : nth 0 (lags data) 0 = dot data data)
    by (rewrite lags_nth by lia; reflexivity).
  assert (Hc0 : 0 < dot data data).
  { destruct data as [|x a]; [contradiction|]. cbn [dot nth] in *.
    pose proof (dot_self_nonneg a). pose proof (Qsq_nonneg x).
    destruct (Qeq_dec x 0) as [E | E].
    - exfalso.
      assert (T : forall y : Q, y * x == 0) by (intro y; rewrite E; ring).
      apply Hnz, T.
    - assert (0 < x * x); [|lra].
      destruct (Qlt_le_dec 0 (x * x)) as [G | G]; [exact G|].
      exfalso. assert (Z : x * x == 0) by lra.
      apply Qmult_integral in Z. tauto. }
  rewrite autocorrelate_lags by exact Hne.
  unfold unbiased, normalized. cbn zeta.
  cbn [truthy py_eq_int Z.eqb negb Pos.eqb].
  rewrite lags_length.
  assert (F : first (lags data) = Ok (nth 0 (lags data) 0)).
  { destruct data as [|x a]; [contradiction|]. reflexivity. }
  assert (L : last_item (lags data) = Ok (last (lags data) 0)).
  { destruct data as [|x a]; [contradiction|]. reflexivity. }
  rewrite F, L. cbn [bind]. rewrite last_nth, lags_length, H0.
  set (c0 := dot data data) in *.
  set (cl := nth (length data - 1) (lags data) 0) in *.
  set (p := last data 0 * nth 0 data 0) in *.
  assert (Hcl : ~ cl == 0) by (rewrite Hl; exact Hnz).
  set (n := length data) in *.
  assert (Hn1 : 0 < of_nat (n - 1)) by (apply of_nat_pos; lia).
  eexists. split; [reflexivity|].
  assert (Len : length (div_arrays (lags data) (linspace (c0 / cl) 1 n)) = n).
  { rewrite div_arrays_length, lags_length, linspace_length.
    apply Nat.min_id. }
  split.
  - rewrite div_arrays_nth
      by (rewrite ?lags_length, ?linspace_length; fold n; lia).
    rewrite linspace_nth, H0 by lia. fold c0. rewrite <- Hl.
    change (of_nat 0) with 0. field. split; [|split]; lra.
  - rewrite last_nth, Len.
    rewrite div_arrays_nth
      by (rewrite ?lags_length, ?linspace_length; fold n; lia).
    rewrite linspace_nth by lia. fold cl.
    assert (D : c0 / cl + of_nat (n - 1) * ((1 - c0 / cl) / of_nat (n - 1))
                == 1) by (field; split; lra).
    rewrite D, <- Hl. field.
Qed.

Lemma autocorrelate_unbias2_ends_witness :
  exists cs,
    autocorrelate [2; 5; -3] (PInt 2) PNone = Ok (cs, 3%nat)
    /\ nth 0 cs 0 == -3 * 2
    /\ last cs 0 == -3 * 2.
Proof.
  apply (autocorrelate_unbias2_ends [2; 5; -3]).
  - simpl. lia.
  - discriminate.
Defined.

(** ** autocorrelation: every lag *)

(** The coefficient at lag [k]: the lagged sum of products of the
    centred signal over the variance times [n - k]. *)
Lemma autocorrelation_nth (signal : list Q) (k : nat) :
  (k < length signal)%nat ->
  nth k (normalised_lags signal) 0
  = dot (skipn k (map (fun v => v - mean signal) signal))
        (map (fun v => v - mean signal) signal)
    / (var signal
       * inject_Z (Z.of_nat (length signal) - Z.of_nat k)).
Proof.
  intros Hk. unfold normalised_lags. cbn zeta.
  set (c := map (fun v => v - mean signal) signal).
  assert (Lc : length c = length signal) by apply length_map.
  rewrite div_arrays_nth
    by (unfold arange_down;
        rewrite ?lags_length, ?length_map, ?length_seq; lia).
  rewrite lags_nth by lia. f_equal.
  set (f := fun q => var signal * q).
  change (map (Qmult (var signal)) (arange_down (length signal)))
    with (map f (arange_down (length signal))).
  rewrite (nth_indep _ 0 (f 0))
    by (unfold arange_down; rewrite !length_map, length_seq; lia).
  rewrite (map_nth f). unfold f. f_equal. unfold arange_down.
  set (g := fun i => inject_Z (Z.of_nat (length signal) - Z.of_nat i)).
  rewrite (nth_indep _ 0 (g 0%nat))
    by (rewrite length_map, length_seq; lia).
  rewrite (map_nth g), seq_nth by lia. reflexivity.
Qed.

(** Lag 0 of the centred signal is [n] times the variance. *)
Lemma dot_centred (signal : list Q) :
  signal <> [] ->
  dot (map (fun v => v - mean signal) signal)
      (map (fun v => v - mean signal) signal)
  == of_nat (length signal) * var signal.
Proof.
  intros H.
  assert (Hn : 0 < of_nat (length signal)).
  { apply of_nat_pos. destruct signal; [contradiction | simpl; lia]. }
  unfold var. cbn zeta. set (m := mean signal). clearbody m.
  rewrite dot_self_map. unfold mean. rewrite length_map.
  field. lra.
Qed.

(** X8.  For every non-constant signal of [n] samples, the coefficient
    that [autocorrelation] returns at lag [k] has magnitude at most
    [n / (n - k)]. *)
Theorem autocorrelation_bound (signal : list Q) (k : nat) :
  ~ (exists c, Forall (fun v => v == c) signal) ->
  (k < length signal)%nat ->
  exists r,
    autocorrelation signal = Ok r
    /\ Qabs (nth k r 0)
       <= of_nat (length signal) / of_nat (length signal - k).
Proof.
  intros Hnc Hk.
  assert (Hne : signal <> []) by (intros ->; simpl in Hk; lia).
  rewrite (autocorrelation_returns signal Hne).
  eexists. split; [reflexivity|].
  assert (Hv : 0 < var signal).
  { assert (H0 : 0 <= of_nat (length signal) * var signal).
    { rewrite <- dot_centred by exact Hne. apply dot_self_nonneg. }
    pose proof (of_nat_pos (length signal) ltac:(lia)) as Hn.
    destruct (Qlt_le_dec 0 (var signal)) as [H | H]; [exact H|].
    exfalso. apply Hnc. exists (mean signal). apply var_zero_constant.
    nra. }
  rewrite autocorrelation_nth by exact Hk.
  set (c := map (fun v => v - mean signal) signal).
  pose proof (lag_bound c k) as B.
  unfold c in B at 3 4. rewrite dot_centred in B by exact Hne. fold c in B.
  replace (Z.of_nat (length signal) - Z.of_nat k)%Z
    with (Z.of_nat (length signal - k)) by lia.
  fold (of_nat (length signal - k)).
  pose proof (of_nat_pos (length signal - k) ltac:(lia)) as Hm.
  pose proof (of_nat_pos (length signal) ltac:(lia)) as Hn.
  set (n := of_nat (length signal)) in *.
  set (m := of_nat (length signal - k)) in *.
  set (r := dot (skipn k c) c) in *.
  assert (Hd : 0 < var signal * m) by nra.
  unfold Qdiv at 1. rewrite Qabs_Qmult.
  rewrite (Qabs_pos (/ (var signal * m)))
    by (apply Qlt_le_weak, Qinv_lt_0_compat, Hd).
  apply Qle_shift_div_l; [exact Hm|].
  assert (E : Qabs r * / (var signal * m) * m == Qabs r / var signal)
    by (field; split; lra).
  rewrite E. apply Qle_shift_div_r; [exact Hv|]. lra.
Qed.

Lemma autocorrelation_bound_witness :
  exists r,
    autocorrelation [1; 2; 4] = Ok r
    /\ Qabs (nth 2 r 0) <= of_nat 3 / of_nat (3 - 2).
Proof.
  apply (autocorrelation_bound [1; 2; 4] 2).
  - intros (c & H).
    inversion H as [|? ? H1 H']; subst. inversion H' as [|? ? H2 _]; subst.
    rewrite <- H1 in H2. discriminate.
  - simpl. lia.
Defined.

(** ** autocorrelation: affine rescaling *)

Lemma sumQ_map_affine (k c : Q) (l : list Q) :
  sumQ (map (fun v => k * v + c) l) == k * sumQ l + of_nat (length l) * c.
Proof.
  induction l as [|v l IH].
  - cbn [map length]. change (sumQ []) with 0. change (of_nat 0) with 0.
    ring.
  - cbn [map length]. rewrite !sumQ_cons, IH. unfold of_nat.
    rewrite Nat2Z.inj_succ. unfold Z.succ. rewrite inject_Z_plus. ring.
Qed.

Lemma mean_map_affine (k c : Q) (l : list Q) :
  l <> [] -> mean (map (fun v => k * v + c) l) == k * mean l + c.
Proof.
  intros H. unfold mean. rewrite length_map, sumQ_map_affine.
  assert (Hn : 0 < of_nat (length l)).
  { apply of_nat_pos. destruct l; [contradiction | simpl; lia]. }
  field. lra.
Qed.

Lemma Forall2_nth_Qeq (a : list Q) :
  forall b,
    length a = length b ->
    (forall k, (k < length a)%nat -> nth k a 0 == nth k b 0) ->
    Forall2 Qeq a b.
Proof.
  induction a as [|p a IH]; intros [|q b] Hl Hn; try discriminate;
    constructor.
  - apply (Hn 0%nat). simpl. lia.
  - apply IH; [now injection Hl|]. intros k Hk. apply (Hn (S k)).
    simpl. lia.
Qed.

Lemma Forall2_skipn {A B : Type} (R : A -> B -> Prop) (j : nat) :
  forall a b, Forall2 R a b -> Forall2 R (skipn j a) (skipn j b).
Proof.
  induction j as [|j IH]; intros a b H; [exact H|].
  destruct H as [|p q a b _ H]; [constructor|]. cbn [skipn]. now apply IH.
Qed.

Lemma dot_scaled (k : Q) (u1 u2 : list Q) :
  Forall2 (fun p q => p == k * q) u1 u2 ->
  forall w1 w2,
    Forall2 (fun p q => p == k * q) w1 w2 ->
    dot u1 w1 == k * k * dot u2 w2.
Proof.
  induction 1 as [|p q u1 u2 Hpq _ IH]; intros w1 w2 Hw.
  - destruct Hw; cbn [dot]; ring.
  - destruct Hw as [|p' q' w1 w2 Hpq' Hw]; cbn [dot]; [ring|].
    rewrite (IH _ _ Hw), Hpq, Hpq'. ring.
Qed.

Lemma Forall2_map_same {A : Type} (R : Q -> Q -> Prop) (f g : A -> Q)
    (l : list A) :
  (forall v, R (f v) (g v)) -> Forall2 R (map f l) (map g l).
Proof. intros H. induction l; constructor; auto. Qed.

Lemma autocorrelation_length (signal : list Q) :
  length (normalised_lags signal) = length signal.
Proof.
  unfold normalised_lags. cbn zeta.
  rewrite div_arrays_length, lags_length, !length_map.
  unfold arange_down. rewrite length_map, length_seq. lia.
Qed.

(** X10.  For every non-constant signal, every [k <> 0] and every [c],
    [autocorrelation] returns on the rescaled signal [k * v + c]
    coefficients equal to those of the signal itself: the result does
    not depend on the offset or the unit of the samples. *)
Theorem autocorrelation_affine (signal : list Q) (k c : Q) :
  ~ (exists c0, Forall (fun v => v == c0) signal) ->
  ~ k == 0 ->
  exists r2 r1,
    autocorrelation (map (fun v => k * v + c) signal) = Ok r2
    /\ autocorrelation signal = Ok r1
    /\ Forall2 Qeq r2 r1.
Proof.
  intros Hnc Hk.
  assert (Hne : signal <> []).
  { intros ->. apply Hnc. exists 0. constructor. }
  set (s2 := map (fun v => k * v + c) signal).
  assert (L2 : length s2 = length signal) by apply length_map.
  assert (Hne2 : s2 <> []).
  { intros E. apply Hne. apply length_zero_iff_nil.
    now rewrite <- L2, E. }
  assert (Hn : 0 < of_nat (length signal)).
  { apply of_nat_pos. destruct signal; [contradiction | simpl; lia]. }
  set (c1 := map (fun v => v - mean signal) signal).
  set (c2 := map (fun v => v - mean s2) s2).
  assert (R : Forall2 (fun p q => p == k * q) c2 c1).
  { unfold c2, c1, s2 at 2. rewrite map_map.
    apply Forall2_map_same. intros v. unfold s2.
    rewrite mean_map_affine by exact Hne. ring. }
  assert (V : var s2 == k * k * var signal).
  { assert (E2 := dot_centred s2 Hne2). fold c2 in E2.
    assert (E1 := dot_centred signal Hne). fold c1 in E1.
    rewrite (dot_scaled k c2 c1 R c2 c1 R), E1, L2 in E2.
    assert (E : var s2 == of_nat (length signal) * var s2
                          / of_nat (length signal)) by (field; lra).
    rewrite E, <- E2. field. lra. }
  assert (V1 : ~ var signal == 0).
  { intros H. apply Hnc. exists (mean signal). now apply var_zero_constant. }
  fold s2. rewrite (autocorrelation_returns s2 Hne2).
  rewrite (autocorrelation_returns signal Hne).
  do 2 eexists. split; [reflexivity|]. split; [reflexivity|].
  apply Forall2_nth_Qeq.
  - now rewrite !autocorrelation_length.
  - intros j Hj. rewrite autocorrelation_length in Hj.
    rewrite !autocorrelation_nth by lia. fold c1 c2.
    rewrite (dot_scaled k _ _ (Forall2_skipn _ j _ _ R) c2 c1 R), V, L2.
    replace (Z.of_nat (length signal) - Z.of_nat j)%Z
      with (Z.of_nat (length signal - j)) by lia.
    fold (of_nat (length signal - j)).
    pose proof (of_nat_pos (length signal - j) ltac:(lia)) as Hm.
    field. repeat split; lra.
Qed.

Lemma autocorrelation_affine_witness :
  exists r2 r1,
    autocorrelation (map (fun v => 3 * v + 10) [1; 2; 4]) = Ok r2
    /\ autocorrelation [1; 2; 4] = Ok r1
    /\ Forall2 Qeq r2 r1.
Proof.
  apply (autocorrelation_affine [1; 2; 4] 3 10).
  - intros (c & H).
    inversion H as [|? ? H1 H']; subst. inversion H' as [|? ? H2 _]; subst.
    rewrite <- H1 in H2. discriminate.
  - discriminate.
Defined.

(** ** numerical_integration: further properties *)

Lemma numerical_integration_repeat_witness :
  numerical_integration (repeat 3 (S 4)) 2
  == 3 * inject_Z (Z.of_nat 4) * (1 + 2) / (2 * 2 * 2).
Proof.
  apply (numerical_integration_repeat 3 2 4). reflexivity.
Defined.

Lemma sums_trapezoid (l : list Q) :
  forall a,
    sumQ (tl (a :: l)) + sumQ (removelast (a :: l))
    == 2 * trapezoid_sum (a :: l).
Proof.
  induction l as [|b l IH]; intros a.
  - cbn [tl removelast trapezoid_sum]. change (sumQ []) with 0. ring.
  - specialize (IH b). cbn [tl] in IH |- *.
    change (removelast (a :: b :: l)) with (a :: removelast (b :: l)).
    change (trapezoid_sum (a :: b :: l))
      with ((a + b) / 2 + trapezoid_sum (b :: l)).
    rewrite !sumQ_cons.
    set (t := trapezoid_sum (b :: l)) in *. set (u := sumQ l) in *.
    set (w := sumQ (removelast (b :: l))) in *. clearbody t u w.
    assert (E : (a + b) / 2 == (a + b) * (1 # 2)) by field.
    rewrite E. lra.
Qed.

(** X12.  At sampling frequency 1 [numerical_integration] is the
    trapezoid rule: the sum of the means of adjacent samples. *)
Theorem numerical_integration_unit_rate (signal : list Q) :
  numerical_integration signal 1 == trapezoid_sum signal.
Proof.
  unfold numerical_integration.
  destruct signal as [|a l]; [reflexivity|].
  pose proof (sums_trapezoid l a) as E.
  set (t := sumQ (tl (a :: l))) in *.
  set (r := sumQ (removelast (a :: l))) in *.
  assert (E' : t / 1 + r == 2 * trapezoid_sum (a :: l))
    by (rewrite <- E; field).
  rewrite E'. field.
Qed.

Lemma sumQ_map_scale (k : Q) (l : list Q) :
  sumQ (map (Qmult k) l) == k * sumQ l.
Proof.
  induction l as [|v l IH].
  - change (sumQ (map (Qmult k) [])) with 0. change (sumQ []) with 0. ring.
  - cbn [map]. rewrite !sumQ_cons, IH. ring.
Qed.

Lemma removelast_map {A B : Type} (f : A -> B) (l : list A) :
  removelast (map f l) = map f (removelast l).
Proof.
  induction l as [|a l IH]; [reflexivity|].
  destruct l as [|b l]; [reflexivity|].
  change (removelast (map f (a :: b :: l)))
    with (f a :: removelast (map f (b :: l))).
  now rewrite IH.
Qed.

(** X13.  [numerical_integration] is homogeneous: scaling every sample
    by [k] scales the result by [k]. *)
Theorem numerical_integration_scale (signal : list Q) (k r : Q) :
  ~ r == 0 ->
  numerical_integration (map (Qmult k) signal) r
  == k * numerical_integration signal r.
Proof.
  intros Hr. unfold numerical_integration.
  rewrite removelast_map.
  replace (tl (map (Qmult k) signal)) with (map (Qmult k) (tl signal))
    by (destruct signal; reflexivity).
  rewrite !sumQ_map_scale. field. exact Hr.
Qed.

Lemma numerical_integration_scale_witness :
  numerical_integration (map (Qmult 5) [1; 4; 2]) 3
  == 5 * numerical_integration [1; 4; 2] 3.
Proof.
  apply (numerical_integration_scale [1; 4; 2] 5 3). discriminate.
Defined.

(** X14.  At a non-zero sampling frequency, a signal of at most one
    sample (the empty signal too) integrates to 0. *)
Theorem numerical_integration_short (signal : list Q) (r : Q) :
  ~ r == 0 ->
  (length signal <= 1)%nat ->
  numerical_integration signal r == 0.
Proof.
  intros _ H. destruct signal as [|a [|b l]]; [| |simpl in H; lia];
    unfold numerical_integration; cbn [tl removelast];
    change (sumQ []) with 0; unfold Qdiv; ring.
Qed.

Lemma numerical_integration_short_witness :
  numerical_integration [7 # 3] 50 == 0.
Proof.
  apply (numerical_integration_short [7 # 3] 50).
  - discriminate.
  - simpl. lia.
Defined.

(** ** crossings_nonzero_pos2neg: further properties *)

Lemma positive_mask_nth (data : list Q) (j : nat) :
  (j < length data)%nat ->
  nth j (map (fun v => Qltb 0 v) data) false = Qltb 0 (nth j data 0).
Proof.
  intros Hj.
  rewrite (nth_indep _ false (Qltb 0 0)) by (rewrite length_map; lia).
  apply (map_nth (fun v => Qltb 0 v)).
Qed.

(** Index [i] is reported exactly when sample [i] is positive and
    sample [i + 1] is not. *)
Lemma crossings_In (data : list Q) (i : nat) :
  In i (crossings_nonzero_pos2neg data)
  <-> (S i < length data)%nat
      /\ 0 < nth i data 0 /\ nth (S i) data 0 <= 0.
Proof.
  unfold crossings_nonzero_pos2neg, nonzero. cbn zeta.
  rewrite nonzero_from_In.
  set (pos := map (fun v => Qltb 0 v) data).
  assert (Hl : length pos = length data) by apply length_map.
  assert (Hn : nth i (and_arrays (removelast pos) (map negb (tl pos))) false
               = true
               <-> (S i < length data)%nat
                   /\ 0 < nth i data 0 /\ nth (S i) data 0 <= 0).
  { rewrite and_arrays_nth, andb_true_iff.
    rewrite removelast_firstn_len, nth_firstn, Hl.
    change (tl pos) with (skipn 1 pos).
    destruct (Nat.ltb_spec i (Nat.pred (length data))) as [Hi | Hi].
    - rewrite (nth_indep (map negb (skipn 1 pos)) false (negb true))
        by (rewrite length_map, length_skipn; lia).
      rewrite (map_nth negb), nth_skipn.
      rewrite (nth_indep _ true false) by lia.
      unfold pos. rewrite !positive_mask_nth by lia. cbn [Nat.add].
      rewrite negb_true_iff, Qltb_lt, Qltb_ge. split.
      + intros [H1 H2]. split; [lia | auto].
      + intros (_ & H1 & H2). auto.
    - split; [intros [H _]; discriminate | intros [H _]; lia]. }
  split.
  - intros (j & E & H). simpl in E. subst j. now apply Hn.
  - intros H. exists i. split; [reflexivity | now apply Hn].
Qed.

(** X15.  No two reported crossings are adjacent: if [i] is reported,
    [i + 1] is not. *)
Theorem crossings_not_adjacent (data : list Q) (i : nat) :
  In i (crossings_nonzero_pos2neg data) ->
  ~ In (S i) (crossings_nonzero_pos2neg data).
Proof.
  rewrite !crossings_In. intros (_ & _ & H1) (_ & H2 & _). lra.
Qed.

Lemma crossings_not_adjacent_witness :
  ~ In 2%nat (crossings_nonzero_pos2neg [1; 2; -1; -2; 3]).
Proof.
  apply (crossings_not_adjacent [1; 2; -1; -2; 3] 1).
  left. reflexivity.
Defined.

Lemma crossing_mask_count (l : list bool) :
  forall k,
    let n := length (nonzero_from k
                       (and_arrays (removelast l) (map negb (tl l)))) in
    (2 * n <= length l)%nat
    /\ (hd true l = false -> 2 * n + 1 <= length l)%nat.
Proof.
  induction l as [|b1 l IH]; intros k; cbn zeta.
  - simpl. split; [lia | discriminate].
  - destruct l as [|b2 l].
    + simpl. split; [lia | intros _; lia].
    + specialize (IH (S k)). cbn zeta in IH. destruct IH as [IH1 IH2].
      change (removelast (b1 :: b2 :: l)) with (b1 :: removelast (b2 :: l)).
      cbn [tl map and_arrays nonzero_from hd] in *.
      rewrite length_app.
      destruct b1; cbn [andb].
      * destruct b2; cbn [negb length] in *.
        -- split; [lia | discriminate].
        -- specialize (IH2 eq_refl). split; [lia | discriminate].
      * cbn [length] in *. split; [lia | intros _; lia].
Qed.

(** X16.  A signal of [n] samples has at most [n / 2] reported
    crossings. *)
Theorem crossings_count (data : list Q) :
  (2 * length (crossings_nonzero_pos2neg data) <= length data)%nat.
Proof.
  unfold crossings_nonzero_pos2neg, nonzero. cbn zeta.
  destruct (crossing_mask_count (map (fun v => Qltb 0 v) data) 0) as [H _].
  now rewrite length_map in H.
Qed.

(** X17.  A signal whose samples are all positive, or all
    non-positive, has no crossing. *)
Theorem crossings_one_sign (data : list Q) :
  Forall (fun v => 0 < v) data \/ Forall (fun v => v <= 0) data ->
  crossings_nonzero_pos2neg data = [].
Proof.
  intros H.
  destruct (crossings_nonzero_pos2neg data) as [|i l] eqn:E; [reflexivity|].
  exfalso.
  assert (Hi : In i (crossings_nonzero_pos2neg data))
    by (rewrite E; now left).
  apply crossings_In in Hi. destruct Hi as (Hlen & Hp & Hn).
  destruct H as [H | H]; rewrite Forall_forall in H.
  - specialize (H (nth (S i) data 0) (nth_In _ _ Hlen)).
    cbv beta in H. lra.
  - assert (Hi : (i < length data)%nat) by lia.
    specialize (H (nth i data 0) (nth_In _ _ Hi)).
    cbv beta in H. lra.
Qed.

Lemma crossings_one_sign_witness :
  crossings_nonzero_pos2neg [0; -3; 0; -1 # 2] = [].
Proof.
  apply (crossings_one_sign [0; -3; 0; -1 # 2]).
  right. repeat constructor; discriminate.
Defined.

(** X18.  The crossings depend on the signs only: scaling the signal
    by a positive factor leaves them unchanged. *)
Theorem crossings_scale (data : list Q) (k : Q) :
  0 < k ->
  crossings_nonzero_pos2neg (map (Qmult k) data)
  = crossings_nonzero_pos2neg data.
Proof.
  intros Hk. unfold crossings_nonzero_pos2neg. cbn zeta.
  rewrite map_map.
  rewrite (map_ext (fun v => Qltb 0 (k * v)) (fun v => Qltb 0 v));
    [reflexivity|].
  intros v. destruct (Qltb 0 v) eqn:E.
  - apply Qltb_lt. apply Qltb_lt in E. nra.
  - apply Qltb_ge. apply Qltb_ge in E. nra.
Qed.

Lemma crossings_scale_witness :
  crossings_nonzero_pos2neg (map (Qmult (7 # 2)) [1; 2; -1; -2; 3])
  = crossings_nonzero_pos2neg [1; 2; -1; -2; 3].
Proof.
  apply (crossings_scale [1; 2; -1; -2; 3] (7 # 2)). reflexivity.
Defined.

(** ** compute_interpeak: further properties *)

Lemma fftfreq_as_bins (n : nat) (d : Q) :
  fftfreq n d
  = map (fun k => inject_Z k * (1 / (of_nat n * d))) (fftfreq_bins n).
Proof. destruct n; reflexivity. Qed.

Lemma fftfreq_bins_length (n : nat) : length (fftfreq_bins n) = n.
Proof.
  rewrite <- (fftfreq_length n 1) at 2.
  now rewrite fftfreq_as_bins, length_map.
Qed.

(** A bin number is 0 only at index 0, and twice its magnitude is at
    most the number of samples. *)
Lemma fftfreq_bins_nth (n i : nat) (k : Z) :
  nth_error (fftfreq_bins n) i = Some k ->
  (k = 0%Z <-> i = 0%nat) /\ (2 * Z.abs k <= Z.of_nat n)%Z.
Proof.
  intros H.
  assert (Hi : (i < n)%nat).
  { rewrite <- (fftfreq_bins_length n). apply nth_error_Some. congruence. }
  apply nth_error_nth with (d := 0%Z) in H. subst k.
  destruct n as [|n]; [lia|]. unfold fftfreq_bins.
  set (N := ((S n - 1) / 2 + 1)%nat).
  pose proof (Nat.div_mod_eq (S n) 2).
  pose proof (Nat.mod_upper_bound (S n) 2 ltac:(lia)).
  pose proof (Nat.div_mod_eq (S n - 1) 2).
  pose proof (Nat.mod_upper_bound (S n - 1) 2 ltac:(lia)).
  destruct (Nat.lt_ge_cases i N) as [Hlt | Hge].
  - rewrite app_nth1 by (rewrite length_map, length_seq; exact Hlt).
    rewrite (nth_indep _ 0%Z (Z.of_nat 0))
      by (rewrite length_map, length_seq; lia).
    rewrite map_nth, seq_nth by lia. unfold N in Hlt. lia.
  - rewrite app_nth2 by (rewrite length_map, length_seq; exact Hge).
    rewrite length_map, length_seq.
    set (g := fun i => (Z.of_nat i - Z.of_nat (S n / 2))%Z).
    rewrite (nth_indep _ 0%Z (g 0%nat))
      by (rewrite length_map, length_seq; unfold N in *; lia).
    rewrite (map_nth g), seq_nth by (unfold N in *; lia).
    unfold g, N in *. lia.
Qed.

Lemma round_half_even_comp (p q : Q) :
  p == q -> round_half_even p = round_half_even q.
Proof.
  intros E. unfold round_half_even. cbn zeta.
  rewrite (Qfloor_comp _ _ E).
  now rewrite (Qcompare_comp (p - inject_Z (Qfloor q))
                 (q - inject_Z (Qfloor q))
                 ltac:(rewrite E; reflexivity)
                 (1 # 2) (1 # 2) ltac:(reflexivity)).
Qed.

Lemma round_half_even_bounds (q : Q) (a b : Z) :
  inject_Z a <= q -> q <= inject_Z b ->
  (a <= round_half_even q <= b)%Z.
Proof.
  intros Ha Hb. unfold round_half_even. cbn zeta.
  pose proof (Qfloor_le q) as F1. pose proof (Qlt_floor q) as F2.
  set (f := Qfloor q) in *.
  assert (Haf : (a <= f)%Z).
  { assert (H : inject_Z a < inject_Z (f + 1)) by lra.
    rewrite <- Zlt_Qlt in H. lia. }
  assert (Hfb : (f <= b)%Z).
  { assert (H : inject_Z f <= inject_Z b) by lra.
    rewrite <- Zle_Qle in H. exact H. }
  assert (Hup : 1 # 2 <= q - inject_Z f -> (f + 1 <= b)%Z).
  { intros H. assert (H' : inject_Z f < inject_Z b) by lra.
    rewrite <- Zlt_Qlt in H'. lia. }
  destruct (Qcompare (q - inject_Z f) (1 # 2)) eqn:C.
  - apply Qeq_alt in C. destruct (Z.even f); [lia|].
    assert (f + 1 <= b)%Z by (apply Hup; lra). lia.
  - lia.
  - apply Qgt_alt in C.
    assert (f + 1 <= b)%Z by (apply Hup; lra). lia.
Qed.

Lemma second_last_short (l : list nat) :
  (length l < 2)%nat -> second_last l = Raise IndexError.
Proof.
  intros H. unfold second_last.
  destruct (rev l) as [|a [|b t]] eqn:E; [reflexivity | reflexivity |].
  exfalso. rewrite <- length_rev, E in H. simpl in H. lia.
Qed.

(** At a positive sample rate the rate cancels in the exact quotient:
    it is the number of samples over the magnitude of the bin
    number. *)
Lemma interpeak_quotient (n : nat) (k : Z) (sample_rate : Q) :
  0 < sample_rate -> (0 < n)%nat -> k <> 0%Z ->
  ~ Qabs (inject_Z k * (1 / (of_nat n * (1 / sample_rate)))) == 0
  /\ sample_rate
       / Qabs (inject_Z k * (1 / (of_nat n * (1 / sample_rate))))
     == of_nat n / inject_Z (Z.abs k).
Proof.
  intros Hs Hn Hk.
  pose proof (of_nat_pos n Hn) as Hp. set (m := of_nat n) in *.
  assert (Ev : 1 / (m * (1 / sample_rate)) == sample_rate / m)
    by (field; split; lra).
  assert (Ef : Qabs (inject_Z k * (1 / (m * (1 / sample_rate))))
               == inject_Z (Z.abs k) * (sample_rate / m)).
  { rewrite Ev, Qabs_Qmult. rewrite (Qabs_pos (sample_rate / m)).
    - unfold Qabs, inject_Z. reflexivity.
    - apply Qlt_le_weak, Qlt_shift_div_l; lra. }
  assert (Hak : 0 < inject_Z (Z.abs k)).
  { change 0 with (inject_Z 0). rewrite <- Zlt_Qlt. lia. }
  assert (Hpos : 0 < inject_Z (Z.abs k) * (sample_rate / m)).
  { apply Qmult_lt_0_compat; [exact Hak|].
    apply Qlt_shift_div_l; lra. }
  split.
  - rewrite Ef. lra.
  - rewrite Ef. field. split; [|split]; lra.
Qed.

Section InterpeakRate.

Variable rfft : list Q -> list Q.
Variable argsort : list Q -> list nat.
Variable round_quotient : Q -> Q -> Z.

(** The outcome of [compute_interpeak] at a positive rate, by the bin
    number at the selected index. *)
Lemma compute_interpeak_bins (data : list Q) (sample_rate : Q) :
  0 < sample_rate ->
  compute_interpeak rfft argsort round_quotient data sample_rate
  = (i <- second_last (argsort (rfft data)) ;;
     match nth_error (fftfreq_bins (length data)) i with
     | None => Raise IndexError
     | Some k =>
         if Z.eqb k 0 then Raise OverflowError
         else Ok (round_quotient sample_rate
                    (Qabs (inject_Z k
                           * (1 / (of_nat (length data)
                                   * (1 / sample_rate))))))
     end).
Proof.
  intros Hs. unfold compute_interpeak.
  destruct (Qeq_bool sample_rate 0) eqn:E0.
  { apply Qeq_bool_iff in E0. lra. }
  destruct (second_last (argsort (rfft data))) as [i|e]; [|reflexivity].
  cbn [bind]. unfold getitem. rewrite fftfreq_as_bins, nth_error_map.
  destruct (nth_error (fftfreq_bins (length data)) i) as [k|] eqn:Ek;
    [|reflexivity].
  cbn [option_map bind].
  assert (Hin : (0 < length data)%nat).
  { assert (i < length data)%nat; [|lia].
    rewrite <- (fftfreq_bins_length (length data)).
    apply nth_error_Some. congruence. }
  destruct (Z.eqb_spec k 0) as [-> | Hk].
  - change (inject_Z 0) with 0. rewrite Qmult_0_l. reflexivity.
  - destruct (interpeak_quotient (length data) k sample_rate Hs Hin Hk)
      as [Hnz _].
    set (freq := Qabs _) in *.
    destruct (Qeq_bool freq 0) eqn:Ez; [|reflexivity].
    apply Qeq_bool_iff in Ez. contradiction.
Qed.

Hypothesis quotient_rounds : rounds_quotient round_quotient.

(** A result at a positive rate is a nearest integer to the number of
    samples over the magnitude of a non-zero bin number. *)
Lemma compute_interpeak_nearest (data : list Q) (sample_rate : Q) (z : Z) :
  0 < sample_rate ->
  compute_interpeak rfft argsort round_quotient data sample_rate = Ok z ->
  exists i k,
    second_last (argsort (rfft data)) = Ok i
    /\ nth_error (fftfreq_bins (length data)) i = Some k
    /\ k <> 0%Z
    /\ Qabs (inject_Z z - of_nat (length data) / inject_Z (Z.abs k))
       <= 1 # 2.
Proof.
  intros Hs. rewrite compute_interpeak_bins by exact Hs.
  destruct (second_last (argsort (rfft data))) as [i|e]; [|discriminate].
  cbn [bind].
  destruct (nth_error (fftfreq_bins (length data)) i) as [k|] eqn:Ek;
    [|discriminate].
  destruct (Z.eqb_spec k 0) as [-> | Hk]; [discriminate|].
  intros [= <-]. exists i, k. repeat split; try assumption.
  assert (Hin : (0 < length data)%nat).
  { assert (i < length data)%nat; [|lia].
    rewrite <- (fftfreq_bins_length (length data)).
    apply nth_error_Some. congruence. }
  destruct (interpeak_quotient (length data) k sample_rate Hs Hin Hk)
    as [Hnz Eq].
  rewrite <- Eq. apply quotient_rounds, Hnz.
Qed.

(** X19.  Whenever [compute_interpeak] returns at a positive sample
    rate, the result lies between 2 and the number of samples. *)
Theorem compute_interpeak_range (data : list Q) (sample_rate : Q) (z : Z) :
  0 < sample_rate ->
  compute_interpeak rfft argsort round_quotient data sample_rate = Ok z ->
  (2 <= z <= Z.of_nat (length data))%Z.
Proof.
  intros Hs Hz.
  destruct (compute_interpeak_nearest data sample_rate z Hs Hz)
    as (i & k & _ & Ek & Hk & Hr).
  destruct (fftfreq_bins_nth _ _ _ Ek) as [_ Hb].
  assert (Hak : 0 < inject_Z (Z.abs k)).
  { change 0 with (inject_Z 0). rewrite <- Zlt_Qlt. lia. }
  assert (H1 : inject_Z 1 <= inject_Z (Z.abs k)).
  { rewrite <- Zle_Qle. lia. }
  assert (H2 : inject_Z (2 * Z.abs k) <= inject_Z (Z.of_nat (length data))).
  { rewrite <- Zle_Qle. exact Hb. }
  rewrite inject_Z_mult in H2. fold (of_nat (length data)) in H2.
  change (inject_Z 1) with 1 in H1. change (inject_Z 2) with 2 in H2.
  assert (Lo : 2 <= of_nat (length data) / inject_Z (Z.abs k)).
  { apply Qle_shift_div_l; [exact Hak | exact H2]. }
  assert (Hi : of_nat (length data) / inject_Z (Z.abs k)
               <= of_nat (length data)).
  { apply Qle_shift_div_r; [exact Hak|].
    assert (0 <= of_nat (length data)) by lra. nra. }
  apply Qabs_Qle_condition in Hr. destruct Hr as [R1 R2].
  set (q := of_nat (length data) / inject_Z (Z.abs k)) in *. clearbody q.
  assert (L : inject_Z 1 < inject_Z z).
  { change (inject_Z 1) with 1. lra. }
  assert (U : inject_Z z < inject_Z (Z.of_nat (length data) + 1)).
  { rewrite inject_Z_plus. change (inject_Z 1) with 1.
    fold (of_nat (length data)). lra. }
  rewrite <- Zlt_Qlt in L, U. lia.
Qed.

(** X20.  The sample rate hardly matters to [compute_interpeak]: at
    two positive rates it either fails with the same error, or returns
    two integers that differ by at most one (both are nearest to the
    number of samples over the magnitude of the selected bin number;
    they differ only when that quotient is a half-integer). *)
Theorem compute_interpeak_rate_free (data : list Q) (r1 r2 : Q) :
  0 < r1 -> 0 < r2 ->
  match compute_interpeak rfft argsort round_quotient data r1,
        compute_interpeak rfft argsort round_quotient data r2 with
  | Ok z1, Ok z2 => (Z.abs (z1 - z2) <= 1)%Z
  | Raise e1, Raise e2 => e1 = e2
  | _, _ => False
  end.
Proof.
  intros H1 H2.
  destruct (compute_interpeak rfft argsort round_quotient data r1)
    as [z1|e1] eqn:E1;
    destruct (compute_interpeak rfft argsort round_quotient data r2)
      as [z2|e2] eqn:E2.
  - destruct (compute_interpeak_nearest data r1 z1 H1 E1)
      as (i & k & Hi & Ek & _ & R1).
    destruct (compute_interpeak_nearest data r2 z2 H2 E2)
      as (i' & k' & Hi' & Ek' & _ & R2).
    assert (i' = i) by congruence. subst i'.
    assert (k' = k) by congruence. subst k'.
    apply Qabs_Qle_condition in R1, R2.
    set (q := of_nat (length data) / inject_Z (Z.abs k)) in *. clearbody q.
    assert (L : inject_Z (z2 + -2) < inject_Z z1).
    { rewrite inject_Z_plus. change (inject_Z (-2)) with (- (2)). lra. }
    assert (U : inject_Z z1 < inject_Z (z2 + 2)).
    { rewrite inject_Z_plus. change (inject_Z 2) with 2. lra. }
    rewrite <- Zlt_Qlt in L, U. lia.
  - rewrite compute_interpeak_bins in E1, E2 by assumption.
    destruct (second_last (argsort (rfft data))) as [i|e]; [|discriminate].
    cbn [bind] in E1, E2.
    destruct (nth_error (fftfreq_bins (length data)) i) as [k|];
      [|discriminate].
    destruct (Z.eqb k 0); discriminate.
  - rewrite compute_interpeak_bins in E1, E2 by assumption.
    destruct (second_last (argsort (rfft data))) as [i|e]; [|discriminate].
    cbn [bind] in E1, E2.
    destruct (nth_error (fftfreq_bins (length data)) i) as [k|];
      [|discriminate].
    destruct (Z.eqb k 0); discriminate.
  - rewrite compute_interpeak_bins in E1, E2 by assumption.
    destruct (second_last (argsort (rfft data))) as [i|e];
      cbn [bind] in E1, E2; [|congruence].
    destruct (nth_error (fftfreq_bins (length data)) i) as [k|];
      [|congruence].
    destruct (Z.eqb k 0); [congruence | discriminate].
Qed.

Hypothesis argsort_sorts : sorts_by_value argsort.

(** X21.  [compute_interpeak] fails with a zero sample rate (the
    division [1.0 / sample_rate]) and, at a non-zero rate and on a
    non-empty signal, fails with an index error when the transform has
    fewer than two entries. *)
Theorem compute_interpeak_errors (data : list Q) (sample_rate : Q) :
  (sample_rate == 0 ->
   compute_interpeak rfft argsort round_quotient data sample_rate
   = Raise ZeroDivisionError)
  /\ (~ sample_rate == 0 -> data <> [] -> (length (rfft data) < 2)%nat ->
      compute_interpeak rfft argsort round_quotient data sample_rate
      = Raise IndexError).
Proof.
  unfold compute_interpeak. split.
  - intros H. apply Qeq_bool_iff in H. now rewrite H.
  - intros H _ Hl.
    destruct (Qeq_bool sample_rate 0) eqn:E.
    { apply Qeq_bool_iff in E. contradiction. }
    rewrite second_last_short; [reflexivity|].
    destruct (argsort_sorts (rfft data)) as [P _].
    now rewrite (Permutation_length P), length_seq.
Qed.

End InterpeakRate.

Lemma compute_interpeak_range_witness :
  (2 <= 2 <= Z.of_nat (length [2; 7; 0; 11]))%Z.
Proof.
  apply (compute_interpeak_range rfft_four merge_argsort
           exact_round_quotient exact_round_quotient_rounds
           [2; 7; 0; 11] 100 2).
  - reflexivity.
  - reflexivity.
Defined.

Lemma compute_interpeak_rate_free_witness :
  match compute_interpeak rfft_four merge_argsort exact_round_quotient
          [2; 7; 0; 11] 100,
        compute_interpeak rfft_four merge_argsort exact_round_quotient
          [2; 7; 0; 11] (1 # 3) with
  | Ok z1, Ok z2 => (Z.abs (z1 - z2) <= 1)%Z
  | Raise e1, Raise e2 => e1 = e2
  | _, _ => False
  end.
Proof.
  apply (compute_interpeak_rate_free rfft_four merge_argsort
           exact_round_quotient exact_round_quotient_rounds
           [2; 7; 0; 11] 100 (1 # 3));
    reflexivity.
Defined.

Lemma compute_interpeak_errors_witness :
  compute_interpeak rfft_four merge_argsort exact_round_quotient
    [2; 7; 0; 11] 0 = Raise ZeroDivisionError
  /\ compute_interpeak rfft_four merge_argsort exact_round_quotient
       [5] 100 = Raise IndexError.
Proof.
  split.
  - apply (compute_interpeak_errors rfft_four merge_argsort
             exact_round_quotient merge_argsort_sorts [2; 7; 0; 11] 0).
    reflexivity.
  - apply (compute_interpeak_errors rfft_four merge_argsort
             exact_round_quotient merge_argsort_sorts [5] 100).
    + discriminate.
    + discriminate.
    + simpl. lia.
Defined.

(** ** butter_lowpass_filter *)

Lemma lfilter_from_length (b : list Q) (a0 : Q) (a_rest : list Q)
    (x : list Q) :
  forall xs ys, length (lfilter_from b a0 a_rest xs ys x) = length x.
Proof.
  induction x as [|xn x IH]; intros xs ys; [reflexivity|].
  cbn [lfilter_from length]. now rewrite IH.
Qed.

Lemma lfilter_from_firstn (b : list Q) (a0 : Q) (a_rest : list Q)
    (x : list Q) :
  forall m xs ys,
    lfilter_from b a0 a_rest xs ys (firstn m x)
    = firstn m (lfilter_from b a0 a_rest xs ys x).
Proof.
  induction x as [|xn x IH]; intros [|m] xs ys; try reflexivity.
  cbn [firstn lfilter_from]. now rewrite IH.
Qed.

Section LowPass.

Variable butter : nat -> Q -> result (list Q * list Q).

(** X22.  Whenever [butter_lowpass_filter] returns, the filtered
    signal has as many samples as the input. *)
Theorem butter_lowpass_filter_length (data : list Q) (sample_rate cutoff : Q)
    (order : nat) (y : list Q) :
  butter_lowpass_filter butter data sample_rate cutoff order = Ok y ->
  length y = length data.
Proof.
  unfold butter_lowpass_filter. cbn zeta.
  destruct (Qeq_bool _ 0); [discriminate|].
  destruct (butter order _) as [[b a]|e]; [|discriminate].
  cbn [bind fst snd]. unfold lfilter.
  destruct a as [|a0 a_rest]; [discriminate|].
  destruct (Qeq_bool a0 0); [discriminate|].
  intros [= <-]. apply lfilter_from_length.
Qed.

(** X23.  The filter is applied causally: whenever
    [butter_lowpass_filter] returns on a signal, it returns on each of
    its prefixes the corresponding prefix of the output, so an output
    sample does not depend on later input samples. *)
Theorem butter_lowpass_filter_causal (data : list Q) (sample_rate cutoff : Q)
    (order : nat) (y : list Q) (m : nat) :
  butter_lowpass_filter butter data sample_rate cutoff order = Ok y ->
  butter_lowpass_filter butter (firstn m data) sample_rate cutoff order
  = Ok (firstn m y).
Proof.
  unfold butter_lowpass_filter. cbn zeta.
  destruct (Qeq_bool _ 0); [discriminate|].
  destruct (butter order _) as [[b a]|e]; [|discriminate].
  cbn [bind fst snd]. unfold lfilter.
  destruct a as [|a0 a_rest]; [discriminate|].
  destruct (Qeq_bool a0 0); [discriminate|].
  intros [= <-]. now rewrite lfilter_from_firstn.
Qed.

End LowPass.

Lemma butter_lowpass_filter_length_witness :
  length [1; 5 # 2; 17 # 4] = length [1; 2; 3].
Proof.
  apply (butter_lowpass_filter_length
           (fun _ _ => Ok ([1], [1; -1 # 2])) [1; 2; 3] 100 10 4).
  reflexivity.
Defined.

Lemma butter_lowpass_filter_causal_witness :
  butter_lowpass_filter (fun _ _ => Ok ([1], [1; -1 # 2]))
    (firstn 2 [1; 2; 3]) 100 10 4
  = Ok (firstn 2 [1; 5 # 2; 17 # 4]).
Proof.
  apply (butter_lowpass_filter_causal
           (fun _ _ => Ok ([1], [1; -1 # 2])) [1; 2; 3] 100 10 4).
  reflexivity.
Defined.

(** ** peakdet: order of all reported extrema, and small swings *)




Section PeakdetSmallSwing.
Import Peakdet.

Variables (delta : Q) (v x : list Q).
Hypothesis small :
  forall i j, (i < length v)%nat -> (j < length v)%nat ->
              nth i v 0 - nth j v 0 <= delta.

Lemma step_within_delta (c : nat) (s : scan) :
  (c < length v)%nat ->
  within_delta_so_far v s -> within_delta_so_far v (step delta v x s c).
Proof.
  intros Hc (L & M & m & X). unfold step. rewrite body_flat_form.
  cbn zeta. rewrite L. set (this := nth c v 0).
  set (mx2 := if xltb (mx s) (Fin this) then Fin this else mx s).
  assert (X2 : exists a, (a < length v)%nat /\ mx2 = Fin (nth a v 0)).
  { subst mx2. destruct X as [X | (a & Ha & X)]; rewrite X.
    - exists c. now split.
    - destruct (xltb (Fin (nth a v 0)) (Fin this)); [exists c | exists a];
        now split. }
  destruct X2 as (a & Ha & X2). rewrite X2. cbn [xsub xltb].
  destruct (Qltb this (nth a v 0 - delta)) eqn:E.
  { apply Qltb_lt in E. specialize (small a c Ha Hc). fold this in small.
    lra. }
  unfold within_delta_so_far. cbn [lookformax maxtab mintab mx].
  repeat split; auto. right. exists a. now split.
Qed.

Lemma run_within_delta (idx : list nat) :
  Forall (fun c => (c < length v)%nat) idx ->
  forall s,
    within_delta_so_far v s ->
    within_delta_so_far v (run delta v x s idx).
Proof.
  induction 1 as [|c idx Hc _ IH]; intros s Hs; [exact Hs|].
  cbn [run fold_left]. apply IH. now apply step_within_delta.
Qed.

End PeakdetSmallSwing.

(** X25.  When no two samples of the signal are more than [delta]
    apart, [peakdet] reports no maximum and no minimum. *)
Theorem peakdet_small_swing (delta : Q) (signal : list Q)
    (x : option (list Q)) :
  0 < delta ->
  length (Peakdet.positions signal x) = length signal ->
  (forall i j, (i < length signal)%nat -> (j < length signal)%nat ->
               nth i signal 0 - nth j signal 0 <= delta) ->
  Peakdet.peakdet signal (Scalar delta) x = Ok ([], []).
Proof.
  intros Hd Hlen Hs. unfold Peakdet.peakdet. cbn zeta.
  rewrite Hlen, Nat.eqb_refl. cbn [negb].
  destruct (Qle_bool delta 0) eqn:E.
  { apply Qle_bool_iff in E. lra. }
  destruct (run_within_delta delta signal (Peakdet.positions signal x) Hs
              (seq 0 (length signal)))
    with (s := Peakdet.scan0) as (_ & M & m & _).
  - apply Forall_forall. intros c Hc. apply in_seq in Hc. lia.
  - unfold within_delta_so_far. simpl. auto.
  - now rewrite M, m.
Qed.

Lemma peakdet_small_swing_witness :
  Peakdet.peakdet [2; 0; 1; 2] (Scalar 2) None = Ok ([], []).
Proof.
  apply (peakdet_small_swing 2 [2; 0; 1; 2] None).
  - reflexivity.
  - reflexivity.
  - intros i j Hi Hj. simpl in Hi, Hj.
    destruct i as [|[|[|[|i]]]]; destruct j as [|[|[|[|j]]]];
      try lia; discriminate.
Defined.

Lemma numerical_integration_repeat_agrees_witness :
  numerical_integration (repeat 3 (S 4)) 1 == 3 * inject_Z (Z.of_nat 4) / 1
  <-> 1 == 1 \/ 3 * inject_Z (Z.of_nat 4) == 0.
Proof.
  apply (numerical_integration_repeat_agrees 3 1 4). reflexivity.
Defined.
